(** * Zwijntje Hall of Fame: the extraction script [scripts/extract-data.js]

    A shallow embedding of the name normalisation, the row interpreter, the
    aggregator, the retrying fetcher and the per-source loop of
    [scripts/extract-data.js], with the properties of the specification that
    were checked against it.

    JavaScript strings are sequences of UTF-16 code units: a string is a
    [list N] here, and the literals of the script are written as Rocq string
    literals (UTF-8) decoded by [js]. *)

From Stdlib Require Import String Ascii.
From Stdlib Require Import List NArith ZArith Bool Lia Arith.
From Stdlib Require Import Relations.Relation_Operators.
From Stdlib Require Import Sorting.Sorted Sorting.Permutation.
Import ListNotations.

(* ================================================================== *)
(** * JavaScript strings                                                *)
(* ================================================================== *)

Module JsString.

Local Open Scope N_scope.

Definition jsstring := list N.

(** Decoder of UTF-8 bytes into UTF-16 code units, for literals only. *)
Fixpoint utf8_units (bs : list N) : list N :=
  match bs with
  | [] => []
  | b :: r =>
      if b <? 128 then b :: utf8_units r
      else if b <? 224 then
        match r with
        | c :: r' => ((b - 192) * 64 + (c - 128)) :: utf8_units r'
        | [] => [b]
        end
      else if b <? 240 then
        match r with
        | c :: d :: r' =>
            ((b - 224) * 4096 + (c - 128) * 64 + (d - 128)) :: utf8_units r'
        | _ => b :: r
        end
      else
        match r with
        | c :: d :: e :: r' =>
            let cp := (b - 240) * 262144 + (c - 128) * 4096
                      + (d - 128) * 64 + (e - 128) in
            let v := cp - 65536 in
            (55296 + v / 1024) :: (56320 + v mod 1024) :: utf8_units r'
        | _ => b :: r
        end
  end.

Fixpoint bytes_of (s : string) : list N :=
  match s with
  | EmptyString => []
  | String a r => N_of_ascii a :: bytes_of r
  end.

Definition js (s : string) : jsstring := utf8_units (bytes_of s).

Fixpoint eqb (a b : jsstring) : bool :=
  match a, b with
  | [], [] => true
  | x :: a', y :: b' => (x =? y) && eqb a' b'
  | _, _ => false
  end.

(** Membership of a code unit in a character class given as a list. *)
Definition inClass (cls : list N) (c : N) : bool :=
  existsb (N.eqb c) cls.

(** [WhiteSpace] and [LineTerminator] of ECMAScript: what [trim] strips and
    what [\s] matches. *)
Definition isWhiteSpace (c : N) : bool :=
  inClass [9; 10; 11; 12; 13; 32; 160; 5760; 8232; 8233; 8239; 8287;
           12288; 65279] c
  || ((8192 <=? c) && (c <=? 8202)).

(** ** [String.prototype.toLowerCase]

    The string is read as code points (a high surrogate followed by a low
    one is one code point), every code point is replaced by its lower case
    of the Unicode Character Database (version 14.0), and the code points
    are written back as code units.  Two code points have a rule of their
    own: U+0130 becomes U+0069 U+0307, and the Greek capital sigma U+03A3
    becomes the final sigma U+03C2 where a cased letter comes before it and
    none after it, case-ignorable code points being skipped on both sides,
    and U+03C3 elsewhere. *)

(** An entry of the lower-case table: [Shift lo hi tlo] sends the code
    points from [lo] to [hi] to those from [tlo] on; [Alt lo hi] holds
    capitals and their small letters in turn, a capital first. *)
Inductive CaseEntry :=
| Shift (lo hi tlo : N)
| Alt (lo hi : N).

Definition LOWER_CASE : list CaseEntry := [
  Shift 65 90 97; Shift 192 214 224; Shift 216 222 248;
  Alt 256 303; Shift 304 304 105; Alt 306 311;
  Alt 313 328; Alt 330 375; Shift 376 376 255;
  Alt 377 382; Shift 385 385 595; Alt 386 389;
  Shift 390 390 596; Shift 391 391 392; Shift 393 394 598;
  Shift 395 395 396; Shift 398 398 477; Shift 399 399 601;
  Shift 400 400 603; Shift 401 401 402; Shift 403 403 608;
  Shift 404 404 611; Shift 406 406 617; Shift 407 407 616;
  Shift 408 408 409; Shift 412 412 623; Shift 413 413 626;
  Shift 415 415 629; Alt 416 421; Shift 422 422 640;
  Shift 423 423 424; Shift 425 425 643; Shift 428 428 429;
  Shift 430 430 648; Shift 431 431 432; Shift 433 434 650;
  Alt 435 438; Shift 439 439 658; Shift 440 440 441;
  Shift 444 444 445; Shift 452 452 454; Shift 453 453 454;
  Shift 455 455 457; Shift 456 456 457; Shift 458 458 460;
  Shift 459 459 460; Shift 461 461 462; Shift 463 463 464;
  Shift 465 465 466; Shift 467 467 468; Shift 469 469 470;
  Shift 471 471 472; Shift 473 473 474; Shift 475 475 476;
  Alt 478 495; Shift 497 497 499; Shift 498 498 499;
  Shift 500 500 501; Shift 502 502 405; Shift 503 503 447;
  Alt 504 543; Shift 544 544 414; Alt 546 563;
  Shift 570 570 11365; Shift 571 571 572; Shift 573 573 410;
  Shift 574 574 11366; Shift 577 577 578; Shift 579 579 384;
  Shift 580 580 649; Shift 581 581 652; Alt 582 591;
  Alt 880 883; Shift 886 886 887; Shift 895 895 1011;
  Shift 902 902 940; Shift 904 906 941; Shift 908 908 972;
  Shift 910 911 973; Shift 913 929 945; Shift 931 939 963;
  Shift 975 975 983; Alt 984 1007; Shift 1012 1012 952;
  Shift 1015 1015 1016; Shift 1017 1017 1010; Shift 1018 1018 1019;
  Shift 1021 1023 891; Shift 1024 1039 1104; Shift 1040 1071 1072;
  Alt 1120 1153; Alt 1162 1215; Shift 1216 1216 1231;
  Alt 1217 1230; Alt 1232 1327; Shift 1329 1366 1377;
  Shift 4256 4293 11520; Shift 4295 4295 11559; Shift 4301 4301 11565;
  Shift 5024 5103 43888; Shift 5104 5109 5112; Shift 7312 7354 4304;
  Shift 7357 7359 4349; Alt 7680 7829; Shift 7838 7838 223;
  Alt 7840 7935; Shift 7944 7951 7936; Shift 7960 7965 7952;
  Shift 7976 7983 7968; Shift 7992 7999 7984; Shift 8008 8013 8000;
  Shift 8025 8025 8017; Shift 8027 8027 8019; Shift 8029 8029 8021;
  Shift 8031 8031 8023; Shift 8040 8047 8032; Shift 8072 8079 8064;
  Shift 8088 8095 8080; Shift 8104 8111 8096; Shift 8120 8121 8112;
  Shift 8122 8123 8048; Shift 8124 8124 8115; Shift 8136 8139 8050;
  Shift 8140 8140 8131; Shift 8152 8153 8144; Shift 8154 8155 8054;
  Shift 8168 8169 8160; Shift 8170 8171 8058; Shift 8172 8172 8165;
  Shift 8184 8185 8056; Shift 8186 8187 8060; Shift 8188 8188 8179;
  Shift 8486 8486 969; Shift 8490 8490 107; Shift 8491 8491 229;
  Shift 8498 8498 8526; Shift 8544 8559 8560; Shift 8579 8579 8580;
  Shift 9398 9423 9424; Shift 11264 11311 11312; Shift 11360 11360 11361;
  Shift 11362 11362 619; Shift 11363 11363 7549; Shift 11364 11364 637;
  Alt 11367 11372; Shift 11373 11373 593; Shift 11374 11374 625;
  Shift 11375 11375 592; Shift 11376 11376 594; Shift 11378 11378 11379;
  Shift 11381 11381 11382; Shift 11390 11391 575; Alt 11392 11491;
  Alt 11499 11502; Shift 11506 11506 11507; Alt 42560 42605;
  Alt 42624 42651; Alt 42786 42799; Alt 42802 42863;
  Alt 42873 42876; Shift 42877 42877 7545; Alt 42878 42887;
  Shift 42891 42891 42892; Shift 42893 42893 613; Alt 42896 42899;
  Alt 42902 42921; Shift 42922 42922 614; Shift 42923 42923 604;
  Shift 42924 42924 609; Shift 42925 42925 620; Shift 42926 42926 618;
  Shift 42928 42928 670; Shift 42929 42929 647; Shift 42930 42930 669;
  Shift 42931 42931 43859; Alt 42932 42947; Shift 42948 42948 42900;
  Shift 42949 42949 642; Shift 42950 42950 7566; Alt 42951 42954;
  Shift 42960 42960 42961; Alt 42966 42969; Shift 42997 42997 42998;
  Shift 65313 65338 65345; Shift 66560 66599 66600; Shift 66736 66771 66776;
  Shift 66928 66938 66967; Shift 66940 66954 66979; Shift 66956 66962 66995;
  Shift 66964 66965 67003; Shift 68736 68786 68800; Shift 71840 71871 71872;
  Shift 93760 93791 93792; Shift 125184 125217 125218
].

Definition CASED : list (N * N) := [
  (65, 90); (97, 122); (170, 170); (181, 181); (186, 186);
  (192, 214); (216, 246); (248, 442); (444, 447); (452, 659);
  (661, 696); (704, 705); (736, 740); (837, 837); (880, 883);
  (886, 887); (890, 893); (895, 895); (902, 902); (904, 906);
  (908, 908); (910, 929); (931, 1013); (1015, 1153); (1162, 1327);
  (1329, 1366); (1376, 1416); (4256, 4293); (4295, 4295); (4301, 4301);
  (4304, 4346); (4349, 4351); (5024, 5109); (5112, 5117); (7296, 7304);
  (7312, 7354); (7357, 7359); (7424, 7615); (7680, 7957); (7960, 7965);
  (7968, 8005); (8008, 8013); (8016, 8023); (8025, 8025); (8027, 8027);
  (8029, 8029); (8031, 8061); (8064, 8116); (8118, 8124); (8126, 8126);
  (8130, 8132); (8134, 8140); (8144, 8147); (8150, 8155); (8160, 8172);
  (8178, 8180); (8182, 8188); (8305, 8305); (8319, 8319); (8336, 8348);
  (8450, 8450); (8455, 8455); (8458, 8467); (8469, 8469); (8473, 8477);
  (8484, 8484); (8486, 8486); (8488, 8488); (8490, 8493); (8495, 8500);
  (8505, 8505); (8508, 8511); (8517, 8521); (8526, 8526); (8544, 8575);
  (8579, 8580); (9398, 9449); (11264, 11492); (11499, 11502); (11506, 11507);
  (11520, 11557); (11559, 11559); (11565, 11565); (42560, 42605); (42624, 42653);
  (42786, 42887); (42891, 42894); (42896, 42954); (42960, 42961); (42963, 42963);
  (42965, 42969); (42997, 42998); (43000, 43002); (43824, 43866); (43868, 43880);
  (43888, 43967); (64256, 64262); (64275, 64279); (65313, 65338); (65345, 65370);
  (66560, 66639); (66736, 66771); (66776, 66811); (66928, 66938); (66940, 66954);
  (66956, 66962); (66964, 66965); (66967, 66977); (66979, 66993); (66995, 67001);
  (67003, 67004); (67456, 67456); (67459, 67461); (67463, 67504); (67506, 67514);
  (68736, 68786); (68800, 68850); (71840, 71903); (93760, 93823); (119808, 119892);
  (119894, 119964); (119966, 119967); (119970, 119970); (119973, 119974); (119977, 119980);
  (119982, 119993); (119995, 119995); (119997, 120003); (120005, 120069); (120071, 120074);
  (120077, 120084); (120086, 120092); (120094, 120121); (120123, 120126); (120128, 120132);
  (120134, 120134); (120138, 120144); (120146, 120485); (120488, 120512); (120514, 120538);
  (120540, 120570); (120572, 120596); (120598, 120628); (120630, 120654); (120656, 120686);
  (120688, 120712); (120714, 120744); (120746, 120770); (120772, 120779); (122624, 122633);
  (122635, 122654); (125184, 125251); (127280, 127305); (127312, 127337); (127344, 127369)
].

Definition CASE_IGNORABLE : list (N * N) := [
  (39, 39); (46, 46); (58, 58); (94, 94); (96, 96);
  (168, 168); (173, 173); (175, 175); (180, 180); (183, 184);
  (688, 879); (884, 885); (890, 890); (900, 901); (903, 903);
  (1155, 1161); (1369, 1369); (1375, 1375); (1425, 1469); (1471, 1471);
  (1473, 1474); (1476, 1477); (1479, 1479); (1524, 1524); (1536, 1541);
  (1552, 1562); (1564, 1564); (1600, 1600); (1611, 1631); (1648, 1648);
  (1750, 1757); (1759, 1768); (1770, 1773); (1807, 1807); (1809, 1809);
  (1840, 1866); (1958, 1968); (2027, 2037); (2042, 2042); (2045, 2045);
  (2070, 2093); (2137, 2139); (2184, 2184); (2192, 2193); (2200, 2207);
  (2249, 2306); (2362, 2362); (2364, 2364); (2369, 2376); (2381, 2381);
  (2385, 2391); (2402, 2403); (2417, 2417); (2433, 2433); (2492, 2492);
  (2497, 2500); (2509, 2509); (2530, 2531); (2558, 2558); (2561, 2562);
  (2620, 2620); (2625, 2626); (2631, 2632); (2635, 2637); (2641, 2641);
  (2672, 2673); (2677, 2677); (2689, 2690); (2748, 2748); (2753, 2757);
  (2759, 2760); (2765, 2765); (2786, 2787); (2810, 2815); (2817, 2817);
  (2876, 2876); (2879, 2879); (2881, 2884); (2893, 2893); (2901, 2902);
  (2914, 2915); (2946, 2946); (3008, 3008); (3021, 3021); (3072, 3072);
  (3076, 3076); (3132, 3132); (3134, 3136); (3142, 3144); (3146, 3149);
  (3157, 3158); (3170, 3171); (3201, 3201); (3260, 3260); (3263, 3263);
  (3270, 3270); (3276, 3277); (3298, 3299); (3328, 3329); (3387, 3388);
  (3393, 3396); (3405, 3405); (3426, 3427); (3457, 3457); (3530, 3530);
  (3538, 3540); (3542, 3542); (3633, 3633); (3636, 3642); (3654, 3662);
  (3761, 3761); (3764, 3772); (3782, 3782); (3784, 3789); (3864, 3865);
  (3893, 3893); (3895, 3895); (3897, 3897); (3953, 3966); (3968, 3972);
  (3974, 3975); (3981, 3991); (3993, 4028); (4038, 4038); (4141, 4144);
  (4146, 4151); (4153, 4154); (4157, 4158); (4184, 4185); (4190, 4192);
  (4209, 4212); (4226, 4226); (4229, 4230); (4237, 4237); (4253, 4253);
  (4348, 4348); (4957, 4959); (5906, 5908); (5938, 5939); (5970, 5971);
  (6002, 6003); (6068, 6069); (6071, 6077); (6086, 6086); (6089, 6099);
  (6103, 6103); (6109, 6109); (6155, 6159); (6211, 6211); (6277, 6278);
  (6313, 6313); (6432, 6434); (6439, 6440); (6450, 6450); (6457, 6459);
  (6679, 6680); (6683, 6683); (6742, 6742); (6744, 6750); (6752, 6752);
  (6754, 6754); (6757, 6764); (6771, 6780); (6783, 6783); (6823, 6823);
  (6832, 6862); (6912, 6915); (6964, 6964); (6966, 6970); (6972, 6972);
  (6978, 6978); (7019, 7027); (7040, 7041); (7074, 7077); (7080, 7081);
  (7083, 7085); (7142, 7142); (7144, 7145); (7149, 7149); (7151, 7153);
  (7212, 7219); (7222, 7223); (7288, 7293); (7376, 7378); (7380, 7392);
  (7394, 7400); (7405, 7405); (7412, 7412); (7416, 7417); (7468, 7530);
  (7544, 7544); (7579, 7679); (8125, 8125); (8127, 8129); (8141, 8143);
  (8157, 8159); (8173, 8175); (8189, 8190); (8203, 8207); (8216, 8217);
  (8228, 8228); (8231, 8231); (8234, 8238); (8288, 8292); (8294, 8303);
  (8305, 8305); (8319, 8319); (8336, 8348); (8400, 8432); (11388, 11389);
  (11503, 11505); (11631, 11631); (11647, 11647); (11744, 11775); (11823, 11823);
  (12293, 12293); (12330, 12333); (12337, 12341); (12347, 12347); (12441, 12446);
  (12540, 12542); (40981, 40981); (42232, 42237); (42508, 42508); (42607, 42610);
  (42612, 42621); (42623, 42623); (42652, 42655); (42736, 42737); (42752, 42785);
  (42864, 42864); (42888, 42890); (42994, 42996); (43000, 43001); (43010, 43010);
  (43014, 43014); (43019, 43019); (43045, 43046); (43052, 43052); (43204, 43205);
  (43232, 43249); (43263, 43263); (43302, 43309); (43335, 43345); (43392, 43394);
  (43443, 43443); (43446, 43449); (43452, 43453); (43471, 43471); (43493, 43494);
  (43561, 43566); (43569, 43570); (43573, 43574); (43587, 43587); (43596, 43596);
  (43632, 43632); (43644, 43644); (43696, 43696); (43698, 43700); (43703, 43704);
  (43710, 43711); (43713, 43713); (43741, 43741); (43756, 43757); (43763, 43764);
  (43766, 43766); (43867, 43871); (43881, 43883); (44005, 44005); (44008, 44008);
  (44013, 44013); (64286, 64286); (64434, 64450); (65024, 65039); (65043, 65043);
  (65056, 65071); (65106, 65106); (65109, 65109); (65279, 65279); (65287, 65287);
  (65294, 65294); (65306, 65306); (65342, 65342); (65344, 65344); (65392, 65392);
  (65438, 65439); (65507, 65507); (65529, 65531); (66045, 66045); (66272, 66272);
  (66422, 66426); (67456, 67461); (67463, 67504); (67506, 67514); (68097, 68099);
  (68101, 68102); (68108, 68111); (68152, 68154); (68159, 68159); (68325, 68326);
  (68900, 68903); (69291, 69292); (69446, 69456); (69506, 69509); (69633, 69633);
  (69688, 69702); (69744, 69744); (69747, 69748); (69759, 69761); (69811, 69814);
  (69817, 69818); (69821, 69821); (69826, 69826); (69837, 69837); (69888, 69890);
  (69927, 69931); (69933, 69940); (70003, 70003); (70016, 70017); (70070, 70078);
  (70089, 70092); (70095, 70095); (70191, 70193); (70196, 70196); (70198, 70199);
  (70206, 70206); (70367, 70367); (70371, 70378); (70400, 70401); (70459, 70460);
  (70464, 70464); (70502, 70508); (70512, 70516); (70712, 70719); (70722, 70724);
  (70726, 70726); (70750, 70750); (70835, 70840); (70842, 70842); (70847, 70848);
  (70850, 70851); (71090, 71093); (71100, 71101); (71103, 71104); (71132, 71133);
  (71219, 71226); (71229, 71229); (71231, 71232); (71339, 71339); (71341, 71341);
  (71344, 71349); (71351, 71351); (71453, 71455); (71458, 71461); (71463, 71467);
  (71727, 71735); (71737, 71738); (71995, 71996); (71998, 71998); (72003, 72003);
  (72148, 72151); (72154, 72155); (72160, 72160); (72193, 72202); (72243, 72248);
  (72251, 72254); (72263, 72263); (72273, 72278); (72281, 72283); (72330, 72342);
  (72344, 72345); (72752, 72758); (72760, 72765); (72767, 72767); (72850, 72871);
  (72874, 72880); (72882, 72883); (72885, 72886); (73009, 73014); (73018, 73018);
  (73020, 73021); (73023, 73029); (73031, 73031); (73104, 73105); (73109, 73109);
  (73111, 73111); (73459, 73460); (78896, 78904); (92912, 92916); (92976, 92982);
  (92992, 92995); (94031, 94031); (94095, 94111); (94176, 94177); (94179, 94180);
  (110576, 110579); (110581, 110587); (110589, 110590); (113821, 113822); (113824, 113827);
  (118528, 118573); (118576, 118598); (119143, 119145); (119155, 119170); (119173, 119179);
  (119210, 119213); (119362, 119364); (121344, 121398); (121403, 121452); (121461, 121461);
  (121476, 121476); (121499, 121503); (121505, 121519); (122880, 122886); (122888, 122904);
  (122907, 122913); (122915, 122916); (122918, 122922); (123184, 123197); (123566, 123566);
  (123628, 123631); (125136, 125142); (125252, 125259); (127995, 127999); (917505, 917505);
  (917536, 917631); (917760, 917999)
].

Definition entryCovers (c : N) (e : CaseEntry) : bool :=
  match e with
  | Shift lo hi _ => (lo <=? c) && (c <=? hi)
  | Alt lo hi => (lo <=? c) && (c <=? hi)
  end.

Definition entryImage (c : N) (e : CaseEntry) : N :=
  match e with
  | Shift lo _ tlo => tlo + (c - lo)
  | Alt lo _ => if N.even (c - lo) then c + 1 else c
  end.

(** The simple lower-case mapping of a code point. *)
Definition lowerCodePoint (c : N) : N :=
  match find (entryCovers c) LOWER_CASE with
  | Some e => entryImage c e
  | None => c
  end.

Definition inRanges (ranges : list (N * N)) (c : N) : bool :=
  existsb (fun r => (fst r <=? c) && (c <=? snd r)) ranges.

Definition isCased (c : N) : bool := inRanges CASED c.

Definition isCaseIgnorable (c : N) : bool := inRanges CASE_IGNORABLE c.

Definition isHighSurrogate (u : N) : bool := (55296 <=? u) && (u <=? 56319).

Definition isLowSurrogate (u : N) : bool := (56320 <=? u) && (u <=? 57343).

(** The code points of a string of code units. *)
Fixpoint codePoints (s : list N) : list N :=
  match s with
  | [] => []
  | u :: r =>
      match r with
      | v :: r' =>
          if isHighSurrogate u && isLowSurrogate v
          then (65536 + (u - 55296) * 1024 + (v - 56320)) :: codePoints r'
          else u :: codePoints r
      | [] => [u]
      end
  end.

(** The code units of a code point. *)
Definition unitsOf (c : N) : list N :=
  if c <? 65536 then [c]
  else [55296 + (c - 65536) / 1024; 56320 + (c - 65536) mod 1024].

Definition codeUnits (cps : list N) : list N := flat_map unitsOf cps.

Definition SIGMA : N := 931.

Definition CAPITAL_I_DOT : N := 304.

(** After case-ignorable code points comes a cased letter. *)
Fixpoint followedByCased (cps : list N) : bool :=
  match cps with
  | [] => false
  | c :: r => if isCaseIgnorable c then followedByCased r else isCased c
  end.

(** The lower case of the code points [cps]; [before] tells that a cased
    letter and then only case-ignorable code points come before them. *)
Fixpoint lowerCodePoints (before : bool) (cps : list N) : list N :=
  match cps with
  | [] => []
  | c :: r =>
      (if c =? SIGMA
       then [if before && negb (followedByCased r) then 962 else 963]
       else if c =? CAPITAL_I_DOT then [105; 775]
       else [lowerCodePoint c])
      ++ lowerCodePoints (if isCaseIgnorable c then before else isCased c) r
  end.

Definition toLowerCase (s : jsstring) : jsstring :=
  codeUnits (lowerCodePoints false (codePoints s)).

(** The upper case of one code unit of Basic Latin and Latin-1 Supplement,
    as the case-insensitive flag of a regular expression canonicalises it;
    the letters of [countDiacritics] and their capitals are all there. *)
Definition upperUnit (c : N) : N :=
  if (97 <=? c) && (c <=? 122) then c - 32
  else if (224 <=? c) && (c <=? 254) && negb (c =? 247) then c - 32
  else c.

Fixpoint dropWhile (p : N -> bool) (s : jsstring) : jsstring :=
  match s with
  | [] => []
  | c :: r => if p c then dropWhile p r else s
  end.

Definition trimStart (s : jsstring) : jsstring := dropWhile isWhiteSpace s.

Fixpoint trimEnd (s : jsstring) : jsstring :=
  match s with
  | [] => []
  | c :: r =>
      match trimEnd r with
      | [] => if isWhiteSpace c then [] else [c]
      | r' => c :: r'
      end
  end.

(** [String.prototype.trim]. *)
Definition trim (s : jsstring) : jsstring := trimEnd (trimStart s).

(** [s.replace(/[cls]/g, by)] for a one-character replacement. *)
Definition replaceClass (cls : list N) (by_ : N) (s : jsstring) : jsstring :=
  map (fun c => if inClass cls c then by_ else c) s.

(** [s.replace(/\s+/g, ' ')]: every maximal run of white space becomes one
    space.  [inRun] tells that the previous code unit was white space. *)
Fixpoint collapseFrom (inRun : bool) (s : jsstring) : jsstring :=
  match s with
  | [] => []
  | c :: r =>
      if isWhiteSpace c
      then (if inRun then collapseFrom true r else 32 :: collapseFrom true r)
      else c :: collapseFrom false r
  end.

Definition collapseSpaces (s : jsstring) : jsstring := collapseFrom false s.

End JsString.

Import JsString.

(* ================================================================== *)
(** * Configuration                                                     *)
(* ================================================================== *)

(** [type] of a data source: the configuration has these two values. *)
Inductive SourceType := championship | competition.

Definition typeName (t : SourceType) : jsstring :=
  match t with
  | championship => js "championship"
  | competition => js "competition"
  end.

Record Source := mkSource {
  name : jsstring;
  url : jsstring;
  type : SourceType;
  category : jsstring
}.


(** A value read from an object: a string, or one of the functions and
    objects every object inherits from [Object.prototype]. *)
Inductive JsValue :=
| JsStr (s : jsstring)
| JsObject.

(** Own properties of [NAME_MAPPINGS]. *)
Definition NAME_MAPPINGS : list (jsstring * jsstring) := [
  (js "anette van velzen", js "Anette Boluijt");
  (js "vikas arumugan", js "Vikas Arumugam");
  (js "roy derksen", js "Roy Derks");
  (js "jan van de bosch", js "Jan van den Bosch");
  (js "chantal kamphuis", js "Chantal Brinks-Kamphuis");
  (js "bert jan rietveld", js "Bert-Jan Rietveld")
].

(** Property names an object literal inherits from [Object.prototype]. *)
Definition OBJECT_PROTOTYPE_KEYS : list jsstring := [
  js "constructor"; js "__proto__"; js "hasOwnProperty"; js "isPrototypeOf";
  js "propertyIsEnumerable"; js "toString"; js "valueOf"; js "toLocaleString";
  js "__defineGetter__"; js "__defineSetter__"; js "__lookupGetter__";
  js "__lookupSetter__"
].

Fixpoint assocGet {V : Type} (k : jsstring) (l : list (jsstring * V))
  : option V :=
  match l with
  | [] => None
  | (k', v) :: r => if JsString.eqb k k' then Some v else assocGet k r
  end.

(** [m.set(k, v)] of a [Map], [o[k] = v] of an object: the value of an
    existing key is replaced where it stands, a new key goes last. *)
Fixpoint assocSet {V : Type} (k : jsstring) (v : V) (l : list (jsstring * V))
  : list (jsstring * V) :=
  match l with
  | [] => [(k, v)]
  | (k', v') :: r =>
      if JsString.eqb k k' then (k', v) :: r else (k', v') :: assocSet k v r
  end.

(** [NAME_MAPPINGS[key]]: the own property, else the inherited one, else
    [undefined] ([None]). *)
Definition nameMappingsGet (key : jsstring) : option JsValue :=
  match assocGet key NAME_MAPPINGS with
  | Some v => Some (JsStr v)
  | None =>
      if existsb (JsString.eqb key) OBJECT_PROTOTYPE_KEYS
      then Some JsObject else None
  end.

(* ================================================================== *)
(** * Name canonicalizer                                                *)
(* ================================================================== *)

Definition E_FAMILY : list N := js "éèêë".
Definition A_FAMILY : list N := js "áàâä".
Definition I_FAMILY : list N := js "íìîï".
Definition O_FAMILY : list N := js "óòôö".
Definition U_FAMILY : list N := js "úùûü".

Definition normalizeName (name : jsstring) : jsstring :=
  collapseSpaces
    (replaceClass (js "ñ") 110
    (replaceClass (js "ç") 99
    (replaceClass U_FAMILY 117
    (replaceClass O_FAMILY 111
    (replaceClass I_FAMILY 105
    (replaceClass A_FAMILY 97
    (replaceClass E_FAMILY 101
    (trim (toLowerCase name))))))))).

(** All the values of [NAME_MAPPINGS], own or inherited, are truthy. *)
Definition applyNameMapping (name : jsstring) : JsValue :=
  let normalized := normalizeName name in
  match nameMappingsGet normalized with
  | Some v => v
  | None => JsStr name
  end.

Definition EN_DASH : jsstring := js "–".
Definition HYPHEN : jsstring := js "-".

(** A non-empty string is truthy. *)
Definition truthy (s : jsstring) : bool := negb (JsString.eqb s []).

Definition consHead (c : N) (l : list jsstring) : list jsstring :=
  match l with
  | f :: fs => (c :: f) :: fs
  | [] => [[c]]
  end.

(** [text.split(/,|\sen\s/)]: scanning from the left, a comma or the four
    code units white space, e, n, white space end the current fragment. *)
Fixpoint splitNames (text : jsstring) : list jsstring :=
  match text with
  | [] => [[]]
  | c :: r =>
      if (c =? 44)%N then [] :: splitNames r
      else
        match r with
        | e :: n :: w :: r' =>
            if isWhiteSpace c && (e =? 101)%N && (n =? 110)%N && isWhiteSpace w
            then [] :: splitNames r'
            else consHead c (splitNames r)
        | _ => consHead c (splitNames r)
        end
  end.

Definition keepName (n : jsstring) : bool :=
  truthy n && negb (JsString.eqb n EN_DASH) && negb (JsString.eqb n HYPHEN).

Definition extractNames (text : jsstring) : list jsstring :=
  if negb (truthy text) || JsString.eqb text EN_DASH
     || JsString.eqb text HYPHEN || JsString.eqb (trim text) []
  then []
  else filter keepName (map trim (splitNames text)).

Definition DIACRITICS : list N := js "éèêëáàâäíìîïóòôöúùûüçñ".

(** [(str.match(/[...]/gi) || []).length]: with the [i] flag a code unit
    matches when its upper case is the upper case of a member. *)
Definition countDiacritics (str : jsstring) : nat :=
  length (filter (fun c => inClass (map upperUnit DIACRITICS) (upperUnit c)) str).

(* ================================================================== *)
(** * Row interpreter                                                   *)
(* ================================================================== *)

Record Result := mkResult {
  year : N;
  rcategory : jsstring;
  rtype : SourceType;
  poule : jsstring;
  winners : list jsstring
}.

Definition isDigit (c : N) : bool := ((48 <=? c) && (c <=? 57))%N.

(** [/^\d{4}$/.test(cell)] *)
Definition isYear (cell : jsstring) : bool :=
  match cell with
  | [a; b; c; d] => isDigit a && isDigit b && isDigit c && isDigit d
  | _ => false
  end.

(** [parseInt] on a string of decimal digits, the only strings the script
    gives it. *)
Definition parseInt (s : jsstring) : N :=
  fold_left (fun acc c => (acc * 10 + (c - 48))%N) s 0%N.

(** The loop of the zomercyclus branch, from the index it starts at: rows
    of two cells.  A missing cell is [undefined], which is falsy. *)
Fixpoint zomercyclusRows (cells : list jsstring) (source : Source)
  : list Result :=
  match cells with
  | [] => []
  | year :: rest =>
      match rest with
      | [] => []
      | winner :: rest' =>
          (if isYear year && truthy winner
              && negb (JsString.eqb winner EN_DASH)
           then [mkResult (parseInt year) (category source) (type source)
                   (js "A") [winner]]
           else [])
          ++ zomercyclusRows rest' source
      end
  end.

Definition teteResult (source : Source) (year : jsstring)
    (winner : option jsstring) : list Result :=
  match winner with
  | Some w =>
      if truthy w && negb (JsString.eqb w EN_DASH)
      then [mkResult (parseInt year) (category source) (type source)
              (js "A") [w]]
      else []
  | None => []
  end.

(** The loop of the tete-a-tete branch: rows of three cells. *)
Fixpoint teteATeteRows (cells : list jsstring) (source : Source)
  : list Result :=
  match cells with
  | [] => []
  | year :: rest =>
      let menWinner := nth_error rest 0 in
      let womenWinner := nth_error rest 1 in
      (if isYear year
       then teteResult source year menWinner
            ++ teteResult source year womenWinner
       else [])
      ++ match rest with
         | _ :: _ :: rest' => teteATeteRows rest' source
         | _ => []
         end
  end.

(** [while (i < cells.length && !/^\d{4}$/.test(cells[i])) i++] *)
Fixpoint skipToYear (cells : list jsstring) : list jsstring :=
  match cells with
  | [] => []
  | c :: r => if isYear c then cells else skipToYear r
  end.

(** The Poule A cell of a row of the other categories. *)
Definition pouleAResult (source : Source) (parsedYear : N)
    (pouleA : option jsstring) : list Result :=
  match pouleA with
  | Some a =>
      if truthy a && negb (JsString.eqb a EN_DASH)
         && negb (JsString.eqb (trim a) [])
      then
        let names := extractNames a in
        if (0 <? List.length names)%nat
        then [mkResult parsedYear (category source) (type source)
                (js "A") names]
        else []
      else []
  | None => []
  end.

(** The second loop of the last branch, on the cells from index [i] on.
    Every iteration moves [i] forward, so [fuel] iterations are enough when
    [fuel] is the number of cells left. *)
Fixpoint variableRows (fuel : nat) (cells : list jsstring) (source : Source)
  : list Result :=
  match fuel with
  | O => []
  | S fuel' =>
      match cells with
      | [] => []
      | year :: rest =>
          if negb (isYear year) then variableRows fuel' rest source
          else
            pouleAResult source (parseInt year) (nth_error rest 0)
            ++ variableRows fuel' (skipToYear (tl rest)) source
      end
  end.

Definition processData (cells : list jsstring) (source : Source)
  : list Result :=
  if JsString.eqb (category source) (js "zomercyclus")
  then zomercyclusRows (skipn 2 cells) source
  else if JsString.eqb (category source) (js "tete-a-tete")
  then teteATeteRows (skipn 3 cells) source
  else variableRows (List.length cells) (skipToYear cells) source.

(* ================================================================== *)
(** * Aggregator                                                        *)
(* ================================================================== *)

Record Player := mkPlayer {
  displayName : jsstring;
  wins : list (jsstring * nat);
  totalWins : nat
}.

(** The [Map] from normalized name to player, in insertion order. *)
Definition PlayerMap := list (jsstring * Player).

(** [`${result.type}_${result.category}`] *)
Definition categoryKey (result : Result) : jsstring :=
  typeName (rtype result) ++ js "_" ++ rcategory result.

(** [if (!wins[key]) wins[key] = 0; wins[key]++]: a missing count and a
    count of 0 are both falsy.  The key is a category key, which is never
    the name of a property that [wins] inherits. *)
Definition incrementWin (key : jsstring) (wins : list (jsstring * nat))
  : list (jsstring * nat) :=
  let wins1 :=
    match assocGet key wins with
    | None | Some O => assocSet key 0 wins
    | Some _ => wins
    end in
  match assocGet key wins1 with
  | Some n => assocSet key (n + 1) wins1
  | None => wins1
  end.

(** The body of the inner [forEach] for one winner name.  [None] is the
    [TypeError] of [normalizeName] on a value that is not a string. *)
Definition creditWinner (result : Result) (playerMap : PlayerMap)
    (name : jsstring) : option PlayerMap :=
  match applyNameMapping name with
  | JsObject => None
  | JsStr canonicalName =>
      let normalizedName := normalizeName canonicalName in
      let player :=
        match assocGet normalizedName playerMap with
        | None => mkPlayer canonicalName [] 0
        | Some player =>
            if (countDiacritics (displayName player)
                <? countDiacritics canonicalName)%nat
            then mkPlayer canonicalName (wins player) (totalWins player)
            else player
        end in
      Some (assocSet normalizedName
              (mkPlayer (displayName player)
                 (incrementWin (categoryKey result) (wins player))
                 (totalWins player + 1))
              playerMap)
  end.

Fixpoint creditWinners (result : Result) (playerMap : PlayerMap)
    (names : list jsstring) : option PlayerMap :=
  match names with
  | [] => Some playerMap
  | name :: names' =>
      match creditWinner result playerMap name with
      | Some playerMap' => creditWinners result playerMap' names'
      | None => None
      end
  end.

Fixpoint creditResults (playerMap : PlayerMap) (allResults : list Result)
  : option PlayerMap :=
  match allResults with
  | [] => Some playerMap
  | result :: rest =>
      match creditWinners result playerMap (winners result) with
      | Some playerMap' => creditResults playerMap' rest
      | None => None
      end
  end.

(** [players.sort((a, b) => b.totalWins - a.totalWins)]: a stable sort,
    largest total first. *)
Fixpoint insertPlayer (p : Player) (sorted : list Player) : list Player :=
  match sorted with
  | [] => [p]
  | q :: r =>
      if (totalWins p <? totalWins q)%nat
      then q :: insertPlayer p r
      else p :: sorted
  end.

Definition sortPlayers (players : list Player) : list Player :=
  fold_right insertPlayer [] players.

Definition buildPlayerStats (allResults : list Result)
  : option (list Player) :=
  match creditResults [] allResults with
  | Some playerMap => Some (sortPlayers (map snd playerMap))
  | None => None
  end.

(* ================================================================== *)
(** * Fetcher                                                           *)
(* ================================================================== *)

(** What one [https.get] comes to: the [error] event of the request, or the
    [end] event of a response.  [res.statusCode || 0] makes a missing status
    code 0. *)
Inductive Response :=
| NetworkError
| Http (statusCode : Z) (data : jsstring).

Inductive FetchResult :=
| Resolved (data : jsstring)
| RejectedStatus (statusCode : Z)
| RejectedError
| Waiting.

Definition shouldRetryStatus (statusCode : Z) : bool :=
  ((statusCode =? 429) || ((500 <=? statusCode) && (statusCode <? 600)))%Z.

(** [attempt(remainingRetries, currentDelay)] against the responses the
    network gives to the successive requests.  The delays handed to
    [setTimeout] are collected in order; [Waiting] is a request that the
    network has not answered. *)
Fixpoint attempt (network : list Response) (remainingRetries : Z)
    (currentDelay : Z) : list Z * FetchResult :=
  match network with
  | [] => ([], Waiting)
  | Http statusCode data :: later =>
      if (statusCode =? 200)%Z then ([], Resolved data)
      else if shouldRetryStatus statusCode && (0 <? remainingRetries)%Z
      then
        let (delays, r) :=
          attempt later (remainingRetries - 1)%Z (currentDelay * 2)%Z in
        (currentDelay :: delays, r)
      else ([], RejectedStatus statusCode)
  | NetworkError :: later =>
      if (0 <? remainingRetries)%Z
      then
        let (delays, r) :=
          attempt later (remainingRetries - 1)%Z (currentDelay * 2)%Z in
        (currentDelay :: delays, r)
      else ([], RejectedError)
  end.

(** [fetchUrl(url, retries = 3, delayMs = 500)] *)
Definition fetchUrl (network : list Response) (retries delayMs : Z)
  : list Z * FetchResult :=
  attempt network retries delayMs.

Definition fetchUrlDefault (network : list Response) : list Z * FetchResult :=
  fetchUrl network 3 500.

(* ================================================================== *)
(** * Main loop                                                         *)
(* ================================================================== *)






(* ================================================================== *)
(** * Spelling variants, as the specification lists them                *)
(* ================================================================== *)

(** The accent families of the specification: a base letter with its
    accented forms. *)
Definition ACCENT_FAMILIES : list (list N) := [
  js "eéèêë"; js "aáàâä"; js "iíìîï"; js "oóòôö"; js "uúùûü"; js "cç"; js "nñ"
].

Definition sameAccentFamily (c d : N) : Prop :=
  c = d \/ exists fam, In fam ACCENT_FAMILIES /\ In c fam /\ In d fam.

Definition blank (w : jsstring) : Prop :=
  Forall (fun c => isWhiteSpace c = true) w.

(** Two code points that are the same letter in one case or the other: a
    capital and its small letter, or two capitals of one small letter. *)
Definition sameLetter (c d : N) : Prop := lowerCodePoint c = lowerCodePoint d.

(** One difference between two spellings of a name: the case of letters,
    accents of a family, white space around the name, a run of white space
    inside it. *)
Inductive variantStep : jsstring -> jsstring -> Prop :=
| variant_case a b :
    Forall2 sameLetter (codePoints a) (codePoints b) -> variantStep a b
| variant_accent a b :
    Forall2 sameAccentFamily a b -> variantStep a b
| variant_outer w1 a w2 :
    blank w1 -> blank w2 -> variantStep (w1 ++ a ++ w2) a
| variant_run p w1 w2 s :
    blank w1 -> blank w2 -> w1 <> [] -> w2 <> [] ->
    variantStep (p ++ w1 ++ s) (p ++ w2 ++ s).

(** Two raw names differ only in case, in accents of a listed family, in
    leading or trailing white space, or in runs of white space. *)
Definition sameSpelling : jsstring -> jsstring -> Prop :=
  clos_refl_sym_trans jsstring variantStep.

(** The key of a raw winner name: [normalizeName(applyNameMapping(raw))],
    which does not exist when the mapping gives an inherited object. *)
Definition playerKey (raw : jsstring) : option jsstring :=
  match applyNameMapping raw with
  | JsStr canonicalName => Some (normalizeName canonicalName)
  | JsObject => None
  end.

(** What the seven accent replacements of [normalizeName] do to one code
    unit, in the order of the script. *)
Definition replaceUnit (cls : list N) (by_ : N) (c : N) : N :=
  if inClass cls c then by_ else c.

Definition foldAccents (c : N) : N :=
  replaceUnit (js "ñ") 110
    (replaceUnit (js "ç") 99
    (replaceUnit U_FAMILY 117
    (replaceUnit O_FAMILY 111
    (replaceUnit I_FAMILY 105
    (replaceUnit A_FAMILY 97
    (replaceUnit E_FAMILY 101 c)))))).

(** One run of white space replaced by another one. *)
Inductive runStep : jsstring -> jsstring -> Prop :=
| run_step p w1 w2 s :
    blank w1 -> blank w2 -> w1 <> [] -> w2 <> [] ->
    runStep (p ++ w1 ++ s) (p ++ w2 ++ s).

(** ** The invariant of a player *)

Definition sumWins (wins : list (jsstring * nat)) : nat :=
  list_sum (map snd wins).

(** [totalWins] is the sum of the counts, every category key is there once,
    and every count that is there is at least 1. *)
Definition playerInvariant (p : Player) : Prop :=
  totalWins p = sumWins (wins p)
  /\ NoDup (map fst (wins p))
  /\ forall key n, In (key, n) (wins p) -> 1 <= n.

(** The player maps the aggregator goes through: the empty one, and the
    one after each winner. *)
Inductive reachable : PlayerMap -> Prop :=
| reach_empty : reachable []
| reach_credit result playerMap name playerMap' :
    reachable playerMap ->
    creditWinner result playerMap name = Some playerMap' ->
    reachable playerMap'.

(** ** Row layouts *)

(** The categories whose rows the script reads by scanning for years: all
    but zomercyclus and tete-a-tete. *)
Definition variableWidth (source : Source) : Prop :=
  category source <> js "zomercyclus" /\ category source <> js "tete-a-tete".

(** The result of the Poule A cell [cell] of the row of year [y], when the
    cell names somebody. *)
Definition rowResult (source : Source) (y cell : jsstring) : list Result :=
  match extractNames cell with
  | [] => []
  | names =>
      [mkResult (parseInt y) (category source) (type source) (js "A") names]
  end.

Definition notYear (cell : jsstring) : Prop := isYear cell = false.

(** The keys of [CATEGORY_MAP] in [src/scripts/main.js], the category keys
    the page shows. *)
Definition CATEGORY_MAP_KEYS : list jsstring := [
  js "championship_doubletten";
  js "championship_mix";
  js "championship_tete-a-tete-heren";
  js "championship_tete-a-tete-dames";
  js "championship_tripletten";
  js "competition_doubletten";
  js "competition_tripletten";
  js "competition_zomercyclus"
].

Definition zomercyclusSource : Source :=
  mkSource (js "Zomercyclus")
    (js "https://www.zwijntje.nl/vereniging/eregalerij/clubcompetities/zomercyclus/")
    competition (js "zomercyclus").

Definition teteATeteSource : Source :=
  mkSource (js "Tête-à-tête Kampioenschappen")
    (js "https://www.zwijntje.nl/vereniging/eregalerij/clubkampioenschappen/tete-a-tete/")
    championship (js "tete-a-tete").

Definition doublettenSource : Source :=
  mkSource (js "Doubletten Kampioenschappen")
    (js "https://www.zwijntje.nl/vereniging/eregalerij/clubkampioenschappen/doubletten/")
    championship (js "doubletten").


(** ** Runs with one winner *)



(** ** Separators of a winner cell *)

Definition containsComma (a : jsstring) : bool := existsb (N.eqb 44) a.

(** White space, e, n, white space somewhere in [a]. *)
Fixpoint containsEn (a : jsstring) : bool :=
  match a with
  | [] => false
  | w1 :: r =>
      match r with
      | e :: n :: w2 :: _ =>
          (isWhiteSpace w1 && (e =? 101)%N && (n =? 110)%N && isWhiteSpace w2)
          || containsEn r
      | _ => false
      end
  end.

(** [a] ends with white space, e, n. *)
Fixpoint endsWithEn (a : jsstring) : bool :=
  match a with
  | [] => false
  | w :: r =>
      match r with
      | [e; n] => isWhiteSpace w && (e =? 101)%N && (n =? 110)%N
      | _ => endsWithEn r
      end
  end.

(** The scan of [splitNames] finds white space, e, n, white space at the
    head of [s]. *)
Definition enAt (s : jsstring) : bool :=
  match s with
  | c :: e :: n :: w :: _ =>
      isWhiteSpace c && (e =? 101)%N && (n =? 110)%N && isWhiteSpace w
  | _ => false
  end.

(** ** Winners in the order the aggregator meets them *)

Definition allWinners (allResults : list Result) : list jsstring :=
  flat_map winners allResults.

(** The canonical name [c] is no better a display name than [top]: it is
    [top], or it has fewer diacritics. *)
Definition yieldsTo (top c : jsstring) : Prop :=
  c = top \/ countDiacritics c < countDiacritics top.

(** The entry of the key of [top], if there is one, shows [top] or a name
    with fewer diacritics. *)
Definition atMostTop (top : jsstring) (pm : PlayerMap) : Prop :=
  forall p, assocGet (normalizeName top) pm = Some p ->
            yieldsTo top (displayName p).

Definition showsTop (top : jsstring) (pm : PlayerMap) : Prop :=
  exists p, assocGet (normalizeName top) pm = Some p /\ displayName p = top.

(** A winner whose canonical name, when it has the key of [top], yields to
    [top]. *)
Definition yielding (top w : jsstring) : Prop :=
  forall c, applyNameMapping w = JsStr c ->
            normalizeName c = normalizeName top -> yieldsTo top c.

(** ** Views of the fetcher *)

(** The set of status codes the specification gives for a retry:
    429 and the half-open interval from 500 to 599. *)
Definition claimedRetryStatus (statusCode : Z) : bool :=
  ((statusCode =? 429) || ((500 <=? statusCode) && (statusCode <? 599)))%Z.

(** A response the fetcher answers with another request, while it has
    retries left. *)
Definition transient (r : Response) : bool :=
  match r with
  | NetworkError => true
  | Http statusCode _ => negb (statusCode =? 200)%Z && shouldRetryStatus statusCode
  end.

(** What the promise comes to when the response [r] is the last one. *)
Definition settle (r : Response) : FetchResult :=
  match r with
  | NetworkError => RejectedError
  | Http statusCode data =>
      if (statusCode =? 200)%Z then Resolved data else RejectedStatus statusCode
  end.

(** The first [k] delays of the backoff that starts at [delay]. *)
Fixpoint backoff (k : nat) (delay : Z) : list Z :=
  match k with
  | O => []
  | S k' => delay :: backoff k' (delay * 2)%Z
  end.

(** ** Worlds that differ in one source *)


(** ** The wins the aggregator counts *)

(** The winner entries of the results, each with its result, in the order
    the two [forEach] loops meet them. *)
Definition credits (allResults : list Result) : list (Result * jsstring) :=
  flat_map (fun r => map (pair r) (winners r)) allResults.

(** The raw name [w] is credited to the player of key [k]. *)
Definition hasKey (k w : jsstring) : bool :=
  match playerKey w with
  | Some k' => JsString.eqb k' k
  | None => false
  end.

Definition creditsOf (k : jsstring) (cs : list (Result * jsstring)) : nat :=
  List.length (filter (fun rw => hasKey k (snd rw)) cs).

Definition categoryCreditsOf (k ck : jsstring) (cs : list (Result * jsstring))
  : nat :=
  List.length
    (filter (fun rw => hasKey k (snd rw)
                       && JsString.eqb (categoryKey (fst rw)) ck) cs).

(** [player.wins[ck] || 0] *)
Definition winsOf (ck : jsstring) (p : Player) : nat :=
  match assocGet ck (wins p) with
  | Some n => n
  | None => 0
  end.

Definition totalOf (k : jsstring) (pm : PlayerMap) : nat :=
  match assocGet k pm with
  | Some p => totalWins p
  | None => 0
  end.

Definition categoryOf (k ck : jsstring) (pm : PlayerMap) : nat :=
  match assocGet k pm with
  | Some p => winsOf ck p
  | None => 0
  end.

(** The key under which the aggregator holds a player. *)
Definition keyOf (p : Player) : jsstring := normalizeName (displayName p).

(** [a] may stand before [b] in the sorted list. *)
Definition moreWins (a b : Player) : Prop := totalWins b <= totalWins a.

Definition withTotal (n : nat) (p : Player) : bool := totalWins p =? n.

(** [Array.from(playerMap.values())]: the players in the order in which
    their keys were first seen. *)
Definition firstSeen (allResults : list Result) : option (list Player) :=
  option_map (map snd) (creditResults [] allResults).

(** The keys of the winners [ws], each one where it comes first. *)
Definition keysSeen (ws : list jsstring) : list jsstring :=
  fold_left
    (fun acc w =>
       match playerKey w with
       | Some k => if existsb (JsString.eqb k) acc then acc else acc ++ [k]
       | None => acc
       end)
    ws [].

(** ** Names without the two letters of special casing *)

(** A 16-bit code unit other than U+03A3, the one code point whose lower
    case depends on what stands around it, and U+0130, the one code point
    whose lower case is two code points. *)
Definition plainUnit (u : N) : bool :=
  ((u <? 65536) && negb (u =? SIGMA) && negb (u =? CAPITAL_I_DOT))%N.

Definition plainName (s : jsstring) : Prop := forallb plainUnit s = true.

(** The lower case of a string by the table of letters alone: every code
    point by itself, one for one. *)
Definition lowerSimple (s : jsstring) : jsstring :=
  codeUnits (map lowerCodePoint (codePoints s)).

(** [normalizeName] with that lower case. *)
Definition letterKey (s : jsstring) : jsstring :=
  collapseSpaces (trim (map foldAccents (lowerSimple s))).

(** No high surrogate stands right before a low one. *)
Fixpoint separated (cps : list N) : bool :=
  match cps with
  | [] => true
  | c :: r =>
      match r with
      | d :: _ => negb (isHighSurrogate c && isLowSurrogate d) && separated r
      | [] => true
      end
  end.

Definition isSurrogate (c : N) : bool := (55296 <=? c)%N && (c <=? 57343)%N.

(** ** Checks on the lower-case table *)

Definition entryLo (e : CaseEntry) : N :=
  match e with Shift lo _ _ => lo | Alt lo _ => lo end.

Definition entryHi (e : CaseEntry) : N :=
  match e with Shift _ hi _ => hi | Alt _ hi => hi end.

Definition entriesApart (e f : CaseEntry) : bool :=
  ((entryHi e <? entryLo f) || (entryHi f <? entryLo e))%N.

Fixpoint allApart (t : list CaseEntry) : bool :=
  match t with
  | [] => true
  | e :: r => forallb (entriesApart e) r && allApart r
  end.

(** The images of a [Shift] entry are in no entry; an [Alt] entry ends on
    a small letter. *)
Definition imageApart (t : list CaseEntry) (e : CaseEntry) : bool :=
  match e with
  | Shift lo hi tlo =>
      forallb (fun f => ((tlo + (hi - lo) <? entryLo f)
                         || (entryHi f <? tlo))%N) t
  | Alt lo hi => N.odd (hi - lo)
  end.

(** An entry and its images hold no surrogate and end below U+110000. *)
Definition entryTame (e : CaseEntry) : bool :=
  match e with
  | Shift lo hi tlo =>
      ((hi <? 55296) || (57343 <? lo))%N
      && ((tlo + (hi - lo) <? 55296) || (57343 <? tlo))%N
      && (tlo + (hi - lo) <? 1114112)%N
  | Alt lo hi => ((hi <? 55296) || (57343 <? lo))%N && (hi <? 1114112)%N
  end.

Definition tableOk (t : list CaseEntry) : bool :=
  allApart t && forallb (imageApart t) t && forallb entryTame t.

(** The code units that are white space. *)
Definition WHITE_SPACE : list N :=
  [9; 10; 11; 12; 13; 32; 160; 5760; 8232; 8233; 8239; 8287; 12288; 65279;
   8192; 8193; 8194; 8195; 8196; 8197; 8198; 8199; 8200; 8201; 8202]%N.

(** The letters of the accent families. *)
Definition ACCENT_LETTERS : list N := concat ACCENT_FAMILIES.

(** A string that does not start with a low surrogate: put after another
    one, its first code unit joins no surrogate pair. *)
Definition headNotLow (y : list N) : Prop :=
  match y with
  | [] => True
  | v :: _ => isLowSurrogate v = false
  end.

(** A code unit that is a code point by itself and its own lower case, and
    none of the two letters of special casing. *)
Definition inertUnit (u : N) : bool :=
  (negb (isSurrogate u) && plainUnit u && (lowerCodePoint u =? u))%N.

Definition inert (w : jsstring) : Prop :=
  Forall (fun u => inertUnit u = true) w.

(* ================================================================== *)
(** * Lemmas on strings                                                 *)
(* ================================================================== *)

Section StringLemmas.

Local Open Scope N_scope.

Lemma jseqb_spec (a b : jsstring) : reflect (a = b) (JsString.eqb a b).
Proof.
  revert b; induction a as [|x a IH]; intros [|y b]; simpl;
    try (constructor; congruence).
  destruct (N.eqb_spec x y) as [->|Hxy]; simpl.
  - destruct (IH b) as [->|Hab]; constructor; congruence.
  - constructor; congruence.
Qed.

Lemma jseqb_refl (a : jsstring) : JsString.eqb a a = true.
Proof. destruct (jseqb_spec a a); congruence. Qed.

Lemma jseqb_eq (a b : jsstring) : JsString.eqb a b = true <-> a = b.
Proof. destruct (jseqb_spec a b); split; congruence. Qed.

Lemma jseqb_neq (a b : jsstring) : JsString.eqb a b = false <-> a <> b.
Proof. destruct (jseqb_spec a b); split; congruence. Qed.

Lemma inClass_In (cls : list N) (c : N) : inClass cls c = true <-> In c cls.
Proof.
  unfold inClass. rewrite existsb_exists. split.
  - intros (x & Hx & Heq). apply N.eqb_eq in Heq. now subst.
  - intros H. exists c. split; [assumption | apply N.eqb_refl].
Qed.

End StringLemmas.

(** Case analysis on every comparison of code units in the goal. *)
Ltac unit_cases :=
  repeat match goal with
    | |- context [(?a =? ?b)%N] => destruct (N.eqb_spec a b); try lia
    | |- context [(?a <=? ?b)%N] => destruct (N.leb_spec a b); try lia
    end;
  simpl; try reflexivity; try lia; try congruence.

Section FoldLemmas.

Local Open Scope N_scope.

Lemma normalizeName_units (name : jsstring) :
  normalizeName name
  = collapseSpaces (map foldAccents (trim (toLowerCase name))).
Proof.
  unfold normalizeName, replaceClass.
  rewrite !map_map. reflexivity.
Qed.

(** A code unit the folding changes is one of the accented letters. *)
Lemma foldAccents_cases (c : N) :
  foldAccents c = c \/ In c DIACRITICS.
Proof.
  unfold foldAccents, replaceUnit.
  destruct (inClass E_FAMILY c) eqn:He.
  { right. apply inClass_In in He. vm_compute in He |- *. tauto. }
  destruct (inClass A_FAMILY c) eqn:Ha.
  { right. apply inClass_In in Ha. vm_compute in Ha |- *. tauto. }
  destruct (inClass I_FAMILY c) eqn:Hi.
  { right. apply inClass_In in Hi. vm_compute in Hi |- *. tauto. }
  destruct (inClass O_FAMILY c) eqn:Ho.
  { right. apply inClass_In in Ho. vm_compute in Ho |- *. tauto. }
  destruct (inClass U_FAMILY c) eqn:Hu.
  { right. apply inClass_In in Hu. vm_compute in Hu |- *. tauto. }
  destruct (inClass (js "ç") c) eqn:Hc.
  { right. apply inClass_In in Hc. vm_compute in Hc |- *. tauto. }
  destruct (inClass (js "ñ") c) eqn:Hn.
  { right. apply inClass_In in Hn. vm_compute in Hn |- *. tauto. }
  left. reflexivity.
Qed.

Ltac each_member H :=
  repeat (destruct H as [H|H]; [subst; vm_compute; auto|]); try contradiction.

Lemma isWhiteSpace_foldAccents (c : N) :
  isWhiteSpace (foldAccents c) = isWhiteSpace c.
Proof.
  destruct (foldAccents_cases c) as [->|H]; [reflexivity|].
  vm_compute in H. each_member H.
Qed.

Lemma foldAccents_family (c d : N) :
  sameAccentFamily c d -> foldAccents c = foldAccents d.
Proof.
  intros [->|(fam & Hfam & Hc & Hd)]; [reflexivity|].
  vm_compute in Hfam.
  repeat (destruct Hfam as [Hfam|Hfam];
          [subst fam; vm_compute in Hc, Hd;
           repeat (destruct Hc as [Hc|Hc]; [subst c|]); try contradiction;
           repeat (destruct Hd as [Hd|Hd]; [subst d|]); try contradiction;
           vm_compute; reflexivity|]).
  contradiction.
Qed.

Lemma sameAccentFamily_foldAccents (c : N) :
  sameAccentFamily c (foldAccents c).
Proof.
  destruct (foldAccents_cases c) as [H|H].
  - left. symmetry. exact H.
  - right. vm_compute in H.
    repeat (destruct H as [H|H];
      [subst c;
       first
         [ exists (js "eéèêë"); vm_compute; intuition congruence
         | exists (js "aáàâä"); vm_compute; intuition congruence
         | exists (js "iíìîï"); vm_compute; intuition congruence
         | exists (js "oóòôö"); vm_compute; intuition congruence
         | exists (js "uúùûü"); vm_compute; intuition congruence
         | exists (js "cç"); vm_compute; intuition congruence
         | exists (js "nñ"); vm_compute; intuition congruence ]|]).
    contradiction.
Qed.

End FoldLemmas.

Section TrimLemmas.

Variable f : N -> N.
Hypothesis f_white : forall c, isWhiteSpace (f c) = isWhiteSpace c.

Lemma trimStart_map (s : jsstring) :
  trimStart (map f s) = map f (trimStart s).
Proof.
  unfold trimStart. induction s as [|c r IH]; simpl; [reflexivity|].
  rewrite f_white. destruct (isWhiteSpace c); [exact IH | reflexivity].
Qed.

Lemma trimEnd_map (s : jsstring) :
  trimEnd (map f s) = map f (trimEnd s).
Proof.
  induction s as [|c r IH]; simpl; [reflexivity|].
  rewrite IH, f_white.
  destruct (trimEnd r); simpl; [destruct (isWhiteSpace c)|]; reflexivity.
Qed.

Lemma trim_map (s : jsstring) : trim (map f s) = map f (trim s).
Proof. unfold trim. now rewrite trimStart_map, trimEnd_map. Qed.

Lemma blank_map (w : jsstring) : blank w -> blank (map f w).
Proof.
  unfold blank. induction 1; simpl; constructor; auto.
  now rewrite f_white.
Qed.

End TrimLemmas.

Section WhiteSpaceLemmas.

Lemma trimStart_blank_app (w s : jsstring) :
  blank w -> trimStart (w ++ s) = trimStart s.
Proof.
  unfold trimStart. induction 1 as [|c w Hc _ IH]; simpl; [reflexivity|].
  now rewrite Hc.
Qed.

Lemma trimEnd_blank (w : jsstring) : blank w -> trimEnd w = [].
Proof.
  induction 1 as [|c w Hc _ IH]; simpl; [reflexivity|].
  now rewrite IH, Hc.
Qed.

Lemma trimEnd_app_blank (s w : jsstring) :
  blank w -> trimEnd (s ++ w) = trimEnd s.
Proof.
  intros Hw. induction s as [|c r IH]; simpl.
  - now apply trimEnd_blank.
  - now rewrite IH.
Qed.

Lemma trimEnd_cons_keep (c : N) (r : jsstring) :
  isWhiteSpace c = false -> exists T, trimEnd (c :: r) = c :: T.
Proof.
  intros Hc. simpl. destruct (trimEnd r) as [|t T].
  - rewrite Hc. now exists [].
  - now exists (t :: T).
Qed.

Lemma trim_comm (s : jsstring) :
  trimEnd (trimStart s) = trimStart (trimEnd s).
Proof.
  unfold trimStart. induction s as [|c r IH]; [reflexivity|].
  destruct (isWhiteSpace c) eqn:Hc.
  - simpl. rewrite Hc, IH. destruct (trimEnd r) as [|t T]; simpl;
      [reflexivity | now rewrite Hc].
  - destruct (trimEnd_cons_keep c r Hc) as (T & E).
    simpl dropWhile at 1. rewrite Hc, E. simpl. now rewrite Hc.
Qed.

Lemma trim_outer (w1 a w2 : jsstring) :
  blank w1 -> blank w2 -> trim (w1 ++ a ++ w2) = trim a.
Proof.
  intros H1 H2. unfold trim.
  rewrite trimStart_blank_app by assumption.
  rewrite !trim_comm. now rewrite trimEnd_app_blank.
Qed.

(** A string is its trimmed form between two blank strings. *)
Lemma trimStart_split (s : jsstring) :
  exists w, blank w /\ s = w ++ trimStart s.
Proof.
  unfold trimStart. induction s as [|c r (w & Hw & IH)]; simpl.
  - exists []. split; [constructor | reflexivity].
  - destruct (isWhiteSpace c) eqn:Hc.
    + exists (c :: w). split; [now constructor|]. simpl. now rewrite <- IH.
    + exists []. split; [constructor | reflexivity].
Qed.

Lemma trimEnd_split (s : jsstring) :
  exists w, blank w /\ s = trimEnd s ++ w.
Proof.
  induction s as [|c r (w & Hw & IH)]; simpl.
  - exists []. split; [constructor | reflexivity].
  - destruct (trimEnd r) as [|t T] eqn:Hr.
    + destruct (isWhiteSpace c) eqn:Hc.
      * exists (c :: w). split; [now constructor|]. simpl in IH. now rewrite IH.
      * exists w. split; [assumption|]. simpl in *. now rewrite IH.
    + exists w. split; [assumption|]. simpl in *. now rewrite <- IH.
Qed.

Lemma trim_split (s : jsstring) :
  exists w1 w2, blank w1 /\ blank w2 /\ s = w1 ++ trim s ++ w2.
Proof.
  destruct (trimStart_split s) as (w1 & H1 & E1).
  destruct (trimEnd_split (trimStart s)) as (w2 & H2 & E2).
  exists w1, w2. repeat split; try assumption.
  unfold trim. now rewrite <- E2.
Qed.

(** Collapsing runs of white space and trimming commute. *)
Lemma collapseFrom_nil_trimEnd (b : bool) (s : jsstring) :
  collapseFrom b s = [] -> trimEnd s = [].
Proof.
  revert b. induction s as [|c r IH]; intros b; simpl; [reflexivity|].
  destruct (isWhiteSpace c) eqn:Hc.
  - destruct b; [|discriminate]. intros H. now rewrite (IH _ H).
  - discriminate.
Qed.

Lemma trimEnd_idem (s : jsstring) : trimEnd (trimEnd s) = trimEnd s.
Proof.
  destruct (trimEnd_split s) as (w & Hw & E).
  rewrite E at 2. now rewrite trimEnd_app_blank.
Qed.

Lemma collapseFrom_trimEnd (b : bool) (s : jsstring) :
  collapseFrom b (trimEnd s) = trimEnd (collapseFrom b s).
Proof.
  revert b. induction s as [|c r IH]; intros b; [reflexivity|].
  assert (Hne : forall b', trimEnd r <> [] ->
                collapseFrom b' (trimEnd r) <> []).
  { intros b' E H.
    apply collapseFrom_nil_trimEnd in H. rewrite trimEnd_idem in H.
    congruence. }
  cbn [trimEnd collapseFrom].
  destruct (trimEnd r) as [|t T] eqn:Hr.
  - destruct (isWhiteSpace c) eqn:Hc.
    + pose proof (IH true) as Ht. cbn [collapseFrom] in Ht.
      destruct b; cbn [trimEnd collapseFrom]; rewrite <- Ht; reflexivity.
    + cbn [trimEnd collapseFrom]. rewrite Hc.
      rewrite <- (IH false). cbn [collapseFrom]. rewrite ?Hc. reflexivity.
  - remember (t :: T) as TT eqn:ETT.
    assert (HTT : TT <> []) by (subst TT; discriminate).
    cbn [collapseFrom].
    destruct (isWhiteSpace c) eqn:Hc.
    + destruct b; [exact (IH true)|].
      cbn [trimEnd]. rewrite <- (IH true).
      destruct (collapseFrom true TT) eqn:E; [|reflexivity].
      exfalso. exact (Hne true HTT E).
    + cbn [trimEnd]. rewrite <- (IH false).
      destruct (collapseFrom false TT) eqn:E; [|reflexivity].
      exfalso. exact (Hne false HTT E).
Qed.

Lemma trimStart_collapseFrom (b : bool) (s : jsstring) :
  trimStart (collapseFrom b s) = collapseFrom false (trimStart s).
Proof.
  unfold trimStart. revert b. induction s as [|c r IH]; intros b; simpl;
    [reflexivity|].
  destruct (isWhiteSpace c) eqn:Hc.
  - destruct b; simpl; apply IH.
  - simpl. now rewrite Hc.
Qed.

Lemma collapse_trim (s : jsstring) :
  collapseSpaces (trim s) = trim (collapseSpaces s).
Proof.
  unfold collapseSpaces, trim.
  now rewrite collapseFrom_trimEnd, trimStart_collapseFrom.
Qed.

Lemma collapseFrom_true (s : jsstring) :
  collapseFrom true s = collapseFrom false (trimStart s).
Proof.
  unfold trimStart. induction s as [|c r IH]; simpl; [reflexivity|].
  destruct (isWhiteSpace c) eqn:Hc; simpl; [exact IH | now rewrite Hc].
Qed.

Lemma collapseFrom_blank_app (b : bool) (w s : jsstring) :
  blank w -> w <> [] ->
  collapseFrom b (w ++ s)
  = (if b then [] else [32%N]) ++ collapseFrom true s.
Proof.
  intros Hw. revert b. induction Hw as [|c w Hc Hw IH]; intros b Hne;
    [congruence|].
  simpl. rewrite Hc.
  destruct w as [|d w'].
  - destruct b; reflexivity.
  - rewrite (IH true) by discriminate. destruct b; reflexivity.
Qed.

Lemma collapseFrom_run (b : bool) (p w1 w2 s : jsstring) :
  blank w1 -> blank w2 -> w1 <> [] -> w2 <> [] ->
  collapseFrom b (p ++ w1 ++ s) = collapseFrom b (p ++ w2 ++ s).
Proof.
  intros H1 H2 N1 N2. revert b.
  induction p as [|c p IH]; intros b; simpl.
  - now rewrite !collapseFrom_blank_app.
  - destruct (isWhiteSpace c); [destruct b|]; now rewrite IH.
Qed.


End WhiteSpaceLemmas.

Section AssocLemmas.

Context {V : Type}.

Lemma assocGet_set_same (k : jsstring) (v : V) (l : list (jsstring * V)) :
  assocGet k (assocSet k v l) = Some v.
Proof.
  induction l as [|[k' v'] l IH]; simpl.
  - now rewrite jseqb_refl.
  - destruct (jseqb_spec k k') as [->|Hk]; simpl.
    + now rewrite jseqb_refl.
    + destruct (jseqb_spec k k'); [congruence | exact IH].
Qed.

Lemma assocGet_set_other (k k' : jsstring) (v : V) (l : list (jsstring * V)) :
  k' <> k -> assocGet k' (assocSet k v l) = assocGet k' l.
Proof.
  intros Hk. induction l as [|[k0 v0] l IH]; simpl.
  - destruct (jseqb_spec k' k); [congruence | reflexivity].
  - destruct (jseqb_spec k k0) as [->|Hk0]; simpl.
    + destruct (jseqb_spec k' k0); [congruence | reflexivity].
    + destruct (jseqb_spec k' k0); [reflexivity | exact IH].
Qed.

(** The values of the list after a write: the old value of the key is
    replaced, or the new one is added. *)
Lemma assocSet_values (k : jsstring) (v : V) (l : list (jsstring * V)) (x : V) :
  In x (map snd (assocSet k v l)) -> x = v \/ In x (map snd l).
Proof.
  induction l as [|[k0 v0] l IH]; simpl.
  - intros [E|[]]. now left.
  - destruct (JsString.eqb k k0); simpl; intuition auto.
Qed.

End AssocLemmas.

Section CreditLemmas.

Lemma creditWinner_key (result : Result) (playerMap : PlayerMap)
    (name : jsstring) :
  creditWinner result playerMap name = None <-> playerKey name = None.
Proof.
  unfold creditWinner, playerKey.
  destruct (applyNameMapping name); split; congruence.
Qed.

(** Crediting a winner writes the entry of its key and no other one, and
    the entry it writes has one win more. *)
Lemma creditWinner_entry (result : Result) (playerMap playerMap' : PlayerMap)
    (name : jsstring) :
  creditWinner result playerMap name = Some playerMap' ->
  exists k p,
    playerKey name = Some k
    /\ assocGet k playerMap' = Some p
    /\ totalWins p
       = match assocGet k playerMap with
         | Some q => totalWins q + 1
         | None => 1
         end
    /\ forall k', k' <> k -> assocGet k' playerMap' = assocGet k' playerMap.
Proof.
  unfold creditWinner, playerKey.
  destruct (applyNameMapping name) as [canonicalName|]; [|discriminate].
  intros H. injection H as <-.
  eexists. eexists. split; [reflexivity|].
  split; [apply assocGet_set_same|].
  split.
  - simpl. destruct (assocGet (normalizeName canonicalName) playerMap) as [q|];
      [|reflexivity].
    destruct (countDiacritics (displayName q) <? countDiacritics canonicalName);
      reflexivity.
  - intros k' Hk'. now apply assocGet_set_other.
Qed.

Lemma creditWinner_changes (result : Result) (playerMap playerMap' : PlayerMap)
    (name : jsstring) (k : jsstring) :
  creditWinner result playerMap name = Some playerMap' ->
  (assocGet k playerMap' <> assocGet k playerMap <-> playerKey name = Some k).
Proof.
  intros H. destruct (creditWinner_entry _ _ _ _ H) as (k0 & p & Hk & Hp & Ht & Ho).
  rewrite Hk. split.
  - intros Hne. destruct (jseqb_spec k k0) as [->|Hkk]; [reflexivity|].
    exfalso. apply Hne. now apply Ho.
  - intros E. injection E as <-. rewrite Hp.
    destruct (assocGet k0 playerMap) as [q|]; [|discriminate].
    intros E. injection E as ->. lia.
Qed.

End CreditLemmas.

(* ================================================================== *)
(** * The lower-case table                                              *)
(* ================================================================== *)

Section TableLemmas.

Local Open Scope N_scope.

Lemma entryCovers_bounds (c : N) (e : CaseEntry) :
  entryCovers c e = true <-> entryLo e <= c <= entryHi e.
Proof.
  destruct e; simpl; rewrite andb_true_iff, !N.leb_le; tauto.
Qed.

Lemma find_none_all {A : Type} (p : A -> bool) (l : list A) :
  (forall x, In x l -> p x = false) -> find p l = None.
Proof.
  induction l as [|a l IH]; intros H; [reflexivity|].
  simpl. rewrite (H a (or_introl eq_refl)). apply IH.
  intros x Hx. apply H. now right.
Qed.

(** In a table of entries that lie apart, the entry of a code point is
    the one that covers it. *)
Lemma find_covering (t : list CaseEntry) (c : N) (e : CaseEntry) :
  allApart t = true -> In e t -> entryCovers c e = true ->
  find (entryCovers c) t = Some e.
Proof.
  induction t as [|f t IH]; intros Ha Hin Hc; [destruct Hin|].
  simpl in Ha. apply andb_true_iff in Ha as [Hf Ha].
  simpl. destruct Hin as [->|Hin].
  - now rewrite Hc.
  - destruct (entryCovers c f) eqn:Ef; [|now apply IH].
    exfalso. rewrite forallb_forall in Hf. specialize (Hf e Hin).
    unfold entriesApart in Hf.
    apply entryCovers_bounds in Hc, Ef.
    apply orb_true_iff in Hf as [Hf|Hf]; apply N.ltb_lt in Hf; lia.
Qed.

Lemma tableOk_LOWER_CASE : tableOk LOWER_CASE = true.
Proof. vm_compute. reflexivity. Qed.

Lemma LOWER_CASE_apart : allApart LOWER_CASE = true.
Proof.
  pose proof tableOk_LOWER_CASE as H. unfold tableOk in H.
  apply andb_true_iff in H as [H _]. now apply andb_true_iff in H as [H _].
Qed.

Lemma LOWER_CASE_images (e : CaseEntry) :
  In e LOWER_CASE -> imageApart LOWER_CASE e = true.
Proof.
  pose proof tableOk_LOWER_CASE as H. unfold tableOk in H.
  apply andb_true_iff in H as [H _]. apply andb_true_iff in H as [_ H].
  rewrite forallb_forall in H. apply H.
Qed.

Lemma LOWER_CASE_tame (e : CaseEntry) :
  In e LOWER_CASE -> entryTame e = true.
Proof.
  pose proof tableOk_LOWER_CASE as H. unfold tableOk in H.
  apply andb_true_iff in H as [_ H].
  rewrite forallb_forall in H. apply H.
Qed.

(** What the table does to a code point: nothing, or the entry that
    covers it gives its image. *)
Lemma lowerCodePoint_cases (c : N) :
  (lowerCodePoint c = c /\ find (entryCovers c) LOWER_CASE = None)
  \/ exists e, In e LOWER_CASE /\ entryCovers c e = true
               /\ lowerCodePoint c = entryImage c e.
Proof.
  unfold lowerCodePoint.
  destruct (find (entryCovers c) LOWER_CASE) as [e|] eqn:E.
  - right. exists e. apply find_some in E as [H1 H2]. auto.
  - left. auto.
Qed.

Lemma lowerCodePoint_idem (c : N) :
  lowerCodePoint (lowerCodePoint c) = lowerCodePoint c.
Proof.
  destruct (lowerCodePoint_cases c) as [[E _]|(e & Hin & Hc & E)];
    [now rewrite E|].
  rewrite E. pose proof (LOWER_CASE_images e Hin) as Hi.
  apply entryCovers_bounds in Hc.
  destruct e as [lo hi tlo|lo hi];
    cbn [entryLo entryHi entryImage imageApart entryTame] in *.
  - unfold lowerCodePoint. rewrite find_none_all; [reflexivity|].
    intros f Hf. rewrite forallb_forall in Hi. specialize (Hi f Hf).
    destruct (entryCovers (tlo + (c - lo)) f) eqn:Ef; [|reflexivity].
    apply entryCovers_bounds in Ef.
    apply orb_true_iff in Hi as [Hi|Hi]; apply N.ltb_lt in Hi; lia.
  - destruct (N.even (c - lo)) eqn:Ev.
    + assert (Hlt : c < hi).
      { destruct (N.eq_dec c hi) as [->|Hne]; [|lia].
        rewrite <- N.negb_even, Ev in Hi. discriminate. }
      unfold lowerCodePoint.
      rewrite (find_covering LOWER_CASE (c + 1) (Alt lo hi)
                 LOWER_CASE_apart Hin).
      * cbn [entryImage]. replace (c + 1 - lo) with (N.succ (c - lo)) by lia.
        rewrite N.even_succ, <- N.negb_even, Ev. reflexivity.
      * apply entryCovers_bounds. cbn [entryLo entryHi]. lia.
    + unfold lowerCodePoint.
      rewrite (find_covering LOWER_CASE c (Alt lo hi) LOWER_CASE_apart Hin).
      * cbn [entryImage]. now rewrite Ev.
      * apply entryCovers_bounds. cbn [entryLo entryHi]. lia.
Qed.

Lemma lowerCodePoint_not_special (c : N) :
  lowerCodePoint c <> SIGMA /\ lowerCodePoint c <> CAPITAL_I_DOT.
Proof.
  split; intros E; pose proof (lowerCodePoint_idem c) as H;
    rewrite E in H; vm_compute in H; discriminate.
Qed.

Lemma lowerCodePoint_surrogate (c : N) :
  (isSurrogate c = true -> lowerCodePoint c = c)
  /\ (isSurrogate c = false -> isSurrogate (lowerCodePoint c) = false)
  /\ (c < 1114112 -> lowerCodePoint c < 1114112).
Proof.
  unfold isSurrogate.
  destruct (lowerCodePoint_cases c) as [[E _]|(e & Hin & Hc & E)].
  - rewrite E. auto.
  - rewrite E. pose proof (LOWER_CASE_tame e Hin) as Ht.
    apply entryCovers_bounds in Hc.
    destruct e as [lo hi tlo|lo hi];
    cbn [entryLo entryHi entryImage imageApart entryTame] in *.
    + apply andb_true_iff in Ht as [Ht H3]. apply andb_true_iff in Ht as [H1 H2].
      apply N.ltb_lt in H3.
      apply orb_true_iff in H1, H2.
      rewrite !N.ltb_lt in H1, H2.
      repeat split.
      * rewrite andb_true_iff, !N.leb_le. lia.
      * intros _. rewrite andb_false_iff, !N.leb_gt. lia.
      * lia.
    + apply andb_true_iff in Ht as [H1 H3]. apply N.ltb_lt in H3.
      apply orb_true_iff in H1. rewrite !N.ltb_lt in H1.
      assert (Hle : c <= (if N.even (c - lo) then c + 1 else c) <= hi).
      { destruct (N.even (c - lo)) eqn:Ev; [|lia].
        pose proof (LOWER_CASE_images _ Hin) as Hi. cbn [imageApart] in Hi.
        destruct (N.eq_dec c hi) as [->|Hne]; [|lia].
        rewrite <- N.negb_even, Ev in Hi. discriminate. }
      repeat split.
      * rewrite andb_true_iff, !N.leb_le. lia.
      * intros _. rewrite andb_false_iff, !N.leb_gt. lia.
      * lia.
Qed.

End TableLemmas.

(* ================================================================== *)
(** * Code points and code units                                        *)
(* ================================================================== *)

Section CodePointLemmas.

Local Open Scope N_scope.

Lemma codePoints_one (u : N) : codePoints [u] = [u].
Proof. reflexivity. Qed.

Lemma codePoints_two (u v : N) (r : list N) :
  codePoints (u :: v :: r)
  = if isHighSurrogate u && isLowSurrogate v
    then (65536 + (u - 55296) * 1024 + (v - 56320)) :: codePoints r
    else u :: codePoints (v :: r).
Proof. reflexivity. Qed.

Local Arguments codePoints : simpl never.
Local Arguments unitsOf : simpl never.
Local Arguments isHighSurrogate : simpl never.
Local Arguments isLowSurrogate : simpl never.
Local Arguments N.add : simpl never.
Local Arguments N.sub : simpl never.
Local Arguments N.mul : simpl never.

Lemma codePoints_cons (u : N) (r : list N) :
  isHighSurrogate u = false -> codePoints (u :: r) = u :: codePoints r.
Proof.
  intros H. destruct r; [reflexivity|]. now rewrite codePoints_two, H.
Qed.

Lemma codePoints_cons_low (u v : N) (r : list N) :
  isLowSurrogate v = false ->
  codePoints (u :: v :: r) = u :: codePoints (v :: r).
Proof.
  intros H. now rewrite codePoints_two, H, andb_false_r.
Qed.

Lemma codePoints_app_len (n : nat) (x y : list N) :
  (List.length x <= n)%nat -> headNotLow y ->
  codePoints (x ++ y) = codePoints x ++ codePoints y.
Proof.
  revert x. induction n as [|n IH]; intros x Hlen Hy.
  - destruct x; [reflexivity | simpl in Hlen; lia].
  - destruct x as [|u [|v r]]; [reflexivity| |].
    + destruct y as [|w y]; [reflexivity|].
      simpl app. now rewrite codePoints_cons_low.
    + simpl in Hlen. simpl app.
      rewrite !codePoints_two.
      destruct (isHighSurrogate u && isLowSurrogate v).
      * rewrite IH by (assumption || lia). reflexivity.
      * change (v :: r ++ y) with ((v :: r) ++ y).
        rewrite (IH (v :: r)) by (assumption || (simpl; lia)). reflexivity.
Qed.

Lemma codePoints_app (x y : list N) :
  headNotLow y -> codePoints (x ++ y) = codePoints x ++ codePoints y.
Proof. apply (codePoints_app_len (List.length x)). apply Nat.le_refl. Qed.

(** A code point of a string is one of its code units or lies beyond the
    code units. *)
Lemma In_codePoints_len (n : nat) (s : list N) (c : N) :
  (List.length s <= n)%nat ->
  In c (codePoints s) ->
  (In c s \/ 65536 <= c) /\ (Forall (fun u => u < 65536) s -> c < 1114112).
Proof.
  revert s. induction n as [|n IH]; intros s Hlen.
  - destruct s; [intros [] | simpl in Hlen; lia].
  - destruct s as [|u [|v r]]; [intros []| |].
    + intros [<-|[]]. split; [left; now left|].
      intros H. inversion H; subst. lia.
    + simpl in Hlen.
      rewrite !codePoints_two.
      destruct (isHighSurrogate u && isLowSurrogate v) eqn:E.
      * apply andb_true_iff in E as [Eu Ev].
        unfold isHighSurrogate in Eu. unfold isLowSurrogate in Ev.
        apply andb_true_iff in Eu as [Eu1 Eu2].
        apply andb_true_iff in Ev as [Ev1 Ev2].
        apply N.leb_le in Eu1, Eu2, Ev1, Ev2.
        intros [<-|H].
        { split; [right; lia | intros _; lia]. }
        destruct (IH r ltac:(lia) H) as [H1 H2]. split.
        { destruct H1; [left; right; now right | now right]. }
        intros Hf. apply H2. inversion Hf as [|? ? _ Hf']; subst.
        now inversion Hf'.
      * intros [<-|H].
        { split; [left; now left|]. intros Hf. inversion Hf; subst. lia. }
        destruct (IH (v :: r) ltac:(simpl; lia) H) as [H1 H2]. split.
        { destruct H1; [left; now right | now right]. }
        intros Hf. apply H2. now inversion Hf.
Qed.

Lemma In_codePoints (s : list N) (c : N) :
  In c (codePoints s) ->
  (In c s \/ 65536 <= c) /\ (Forall (fun u => u < 65536) s -> c < 1114112).
Proof. apply (In_codePoints_len (List.length s)). apply Nat.le_refl. Qed.

Lemma codePoints_separated_len (n : nat) (s : list N) :
  (List.length s <= n)%nat -> separated (codePoints s) = true.
Proof.
  revert s. induction n as [|n IH]; intros s Hlen.
  - destruct s; [reflexivity | simpl in Hlen; lia].
  - destruct s as [|u [|v r]]; [reflexivity | reflexivity |].
    simpl in Hlen.
    rewrite !codePoints_two.
    destruct (isHighSurrogate u && isLowSurrogate v) eqn:E.
    + apply andb_true_iff in E as [Eu Ev].
      unfold isHighSurrogate in Eu. unfold isLowSurrogate in Ev.
      apply andb_true_iff in Eu as [Eu1 Eu2].
      apply andb_true_iff in Ev as [Ev1 Ev2].
      apply N.leb_le in Eu1, Eu2, Ev1, Ev2.
      cbn [separated]. rewrite (IH r) by lia.
      destruct (codePoints r); [reflexivity|].
      replace (isHighSurrogate (65536 + (u - 55296) * 1024 + (v - 56320)))
        with false; [reflexivity|].
      symmetry. unfold isHighSurrogate. apply andb_false_iff. right.
      apply N.leb_gt. lia.
    + cbn [separated]. rewrite (IH (v :: r)) by (simpl; lia).
      destruct r as [|w r'].
      * simpl. rewrite E. reflexivity.
      * rewrite !codePoints_two.
        destruct (isHighSurrogate v && isLowSurrogate w) eqn:E2.
        { apply andb_true_iff in E2 as [Ev _].
          replace (isLowSurrogate (65536 + (v - 55296) * 1024 + (w - 56320)))
            with false; [now rewrite andb_false_r|].
          symmetry. unfold isLowSurrogate. apply andb_false_iff. right.
          apply N.leb_gt. lia. }
        rewrite E. reflexivity.
Qed.

Lemma codePoints_separated (s : list N) : separated (codePoints s) = true.
Proof. apply (codePoints_separated_len (List.length s)). apply Nat.le_refl. Qed.

Lemma unitsOf_small (c : N) : c < 65536 -> unitsOf c = [c].
Proof. intros H. unfold unitsOf. apply N.ltb_lt in H. now rewrite H. Qed.

Lemma unitsOf_pair (c : N) :
  65536 <= c < 1114112 ->
  exists h l, unitsOf c = [h; l]
              /\ isHighSurrogate h = true /\ isLowSurrogate l = true
              /\ 65536 + (h - 55296) * 1024 + (l - 56320) = c.
Proof.
  intros [H1 H2]. unfold unitsOf.
  assert (E : (c <? 65536) = false) by (apply N.ltb_ge; lia). rewrite E.
  pose proof (N.div_mod (c - 65536) 1024 ltac:(lia)) as Hd.
  pose proof (N.mod_lt (c - 65536) 1024 ltac:(lia)) as Hm.
  assert (Hq : (c - 65536) / 1024 < 1024).
  { apply N.Div0.div_lt_upper_bound. lia. }
  exists (55296 + (c - 65536) / 1024), (56320 + (c - 65536) mod 1024).
  split; [reflexivity|].
  revert Hd Hm Hq.
  generalize ((c - 65536) / 1024) as q, ((c - 65536) mod 1024) as m.
  intros q m Hd Hm Hq.
  unfold isHighSurrogate, isLowSurrogate.
  rewrite !andb_true_iff, !N.leb_le. repeat split; lia.
Qed.

Lemma codeUnits_app (a b : list N) :
  codeUnits (a ++ b) = codeUnits a ++ codeUnits b.
Proof. apply flat_map_app. Qed.

(** Writing code points as code units and reading them back gives the
    code points again. *)
Lemma codePoints_codeUnits (cps : list N) :
  Forall (fun c => c < 1114112) cps -> separated cps = true ->
  codePoints (codeUnits cps) = cps.
Proof.
  induction 1 as [|c r Hc Hr IH]; intros Hs; [reflexivity|].
  assert (Hsr : separated r = true).
  { cbn [separated] in Hs. destruct r; [reflexivity|].
    now apply andb_true_iff in Hs as [_ Hs]. }
  specialize (IH Hsr). cbn [codeUnits flat_map].
  change (flat_map unitsOf r) with (codeUnits r).
  destruct (N.lt_ge_cases c 65536) as [Hlt|Hge].
  - rewrite (unitsOf_small c Hlt). simpl app.
    destruct r as [|d r']; [reflexivity|].
    cbn [separated] in Hs. apply andb_true_iff in Hs as [Hcd _].
    apply negb_true_iff in Hcd.
    inversion Hr as [|? ? Hd _]; subst.
    destruct (N.lt_ge_cases d 65536) as [Hdl|Hdg].
    + cbn [codeUnits flat_map] in *. rewrite (unitsOf_small d Hdl) in *.
      simpl app in *.
      rewrite !codePoints_two.
      rewrite Hcd. now rewrite IH.
    + destruct (unitsOf_pair d (conj Hdg Hd)) as (h & l & E & Hh & Hl & _).
      cbn [codeUnits flat_map] in *. rewrite E in *. simpl app in *.
      rewrite codePoints_cons_low; [now rewrite IH|].
      unfold isHighSurrogate in Hh. unfold isLowSurrogate.
      apply andb_true_iff in Hh as [Hh1 Hh2]. apply N.leb_le in Hh1, Hh2.
      apply andb_false_iff. left. apply N.leb_gt. lia.
  - destruct (unitsOf_pair c (conj Hge Hc)) as (h & l & E & Hh & Hl & Ec).
    rewrite E. simpl app.
    rewrite !codePoints_two.
    now rewrite Hh, Hl, Ec, IH.
Qed.

End CodePointLemmas.

(* ================================================================== *)
(** * Lower case by the table of letters                                *)
(* ================================================================== *)

Section InertLemmas.

Local Open Scope N_scope.

Local Arguments codePoints : simpl never.
Local Arguments unitsOf : simpl never.
Local Arguments lowerCodePoint : simpl never.
Local Arguments isHighSurrogate : simpl never.
Local Arguments isLowSurrogate : simpl never.

Lemma isWhiteSpace_In (u : N) : isWhiteSpace u = true -> In u WHITE_SPACE.
Proof.
  unfold isWhiteSpace. intros H. apply inClass_In.
  apply orb_true_iff in H as [H|H].
  - apply inClass_In in H. simpl in H.
    repeat (destruct H as [H|H]; [subst u; reflexivity|]). contradiction.
  - apply andb_true_iff in H as [H1 H2]. apply N.leb_le in H1, H2.
    assert (E : u = 8192 \/ u = 8193 \/ u = 8194 \/ u = 8195 \/ u = 8196
                \/ u = 8197 \/ u = 8198 \/ u = 8199 \/ u = 8200 \/ u = 8201
                \/ u = 8202) by lia.
    repeat (destruct E as [E|E]; [subst u; reflexivity|]).
    subst u. reflexivity.
Qed.

Lemma white_inert (u : N) : isWhiteSpace u = true -> inertUnit u = true.
Proof.
  intros H. apply isWhiteSpace_In in H.
  assert (A : forallb inertUnit WHITE_SPACE = true) by (vm_compute; reflexivity).
  rewrite forallb_forall in A. auto.
Qed.

Lemma accent_inert (u : N) : In u ACCENT_LETTERS -> inertUnit u = true.
Proof.
  assert (A : forallb inertUnit ACCENT_LETTERS = true)
    by (vm_compute; reflexivity).
  rewrite forallb_forall in A. auto.
Qed.

Lemma blank_inert (w : jsstring) : blank w -> inert w.
Proof.
  unfold blank, inert. apply Forall_impl. exact white_inert.
Qed.

Lemma inertUnit_facts (u : N) :
  inertUnit u = true ->
  isHighSurrogate u = false /\ isLowSurrogate u = false
  /\ lowerCodePoint u = u /\ unitsOf u = [u].
Proof.
  unfold inertUnit. intros H.
  apply andb_true_iff in H as [H H3]. apply andb_true_iff in H as [H1 H2].
  apply N.eqb_eq in H3. apply negb_true_iff in H1.
  unfold plainUnit in H2.
  apply andb_true_iff in H2 as [H2 _].
  apply andb_true_iff in H2 as [H2 _]. apply N.ltb_lt in H2.
  unfold isSurrogate in H1. unfold isHighSurrogate, isLowSurrogate.
  repeat split; try assumption.
  - apply andb_false_iff in H1 as [H1|H1]; apply N.leb_gt in H1;
      apply andb_false_iff; [left | right]; apply N.leb_gt; lia.
  - apply andb_false_iff in H1 as [H1|H1]; apply N.leb_gt in H1;
      apply andb_false_iff; [left | right]; apply N.leb_gt; lia.
  - now apply unitsOf_small.
Qed.

Lemma inert_headNotLow (w y : jsstring) :
  inert w -> w <> [] -> headNotLow (w ++ y).
Proof.
  intros H N. destruct w as [|u w]; [congruence|].
  inversion H; subst. simpl. now apply inertUnit_facts.
Qed.

Lemma codePoints_inert_app (w y : jsstring) :
  inert w -> codePoints (w ++ y) = w ++ codePoints y.
Proof.
  induction 1 as [|u w Hu _ IH]; [reflexivity|].
  simpl app. rewrite codePoints_cons by now apply inertUnit_facts.
  now rewrite IH.
Qed.

Lemma map_lowerCodePoint_inert (w : jsstring) :
  inert w -> map lowerCodePoint w = w.
Proof.
  induction 1 as [|u w Hu _ IH]; [reflexivity|].
  cbn [map]. rewrite IH.
  apply inertUnit_facts in Hu as (_ & _ & E & _). now rewrite E.
Qed.

Lemma codeUnits_inert (w : jsstring) : inert w -> codeUnits w = w.
Proof.
  induction 1 as [|u w Hu _ IH]; [reflexivity|].
  unfold codeUnits in *. cbn [flat_map]. rewrite IH.
  apply inertUnit_facts in Hu as (_ & _ & _ & E). now rewrite E.
Qed.

Lemma lowerSimple_inert_app (w y : jsstring) :
  inert w -> lowerSimple (w ++ y) = w ++ lowerSimple y.
Proof.
  intros H. unfold lowerSimple.
  rewrite (codePoints_inert_app w y H), map_app, codeUnits_app.
  now rewrite (map_lowerCodePoint_inert w H), (codeUnits_inert w H).
Qed.

Lemma lowerSimple_app (x y : jsstring) :
  headNotLow y -> lowerSimple (x ++ y) = lowerSimple x ++ lowerSimple y.
Proof.
  intros H. unfold lowerSimple.
  now rewrite (codePoints_app x y H), map_app, codeUnits_app.
Qed.

Lemma lowerSimple_nil : lowerSimple [] = [].
Proof. reflexivity. Qed.

(** White space inside a string stays where it is. *)
Lemma lowerSimple_run (p w s : jsstring) :
  inert w -> w <> [] ->
  lowerSimple (p ++ w ++ s) = lowerSimple p ++ w ++ lowerSimple s.
Proof.
  intros H N.
  rewrite (lowerSimple_app p (w ++ s) (inert_headNotLow w s H N)).
  now rewrite (lowerSimple_inert_app w s H).
Qed.

Lemma lowerSimple_outer (w1 a w2 : jsstring) :
  inert w1 -> inert w2 ->
  lowerSimple (w1 ++ a ++ w2) = w1 ++ lowerSimple a ++ w2.
Proof.
  intros H1 H2. rewrite (lowerSimple_inert_app w1 _ H1). f_equal.
  destruct w2 as [|u w2]; [now rewrite !app_nil_r|].
  rewrite <- (app_nil_r (u :: w2)) at 1.
  rewrite (lowerSimple_run a (u :: w2) [] H2) by discriminate.
  now rewrite lowerSimple_nil, app_nil_r.
Qed.

End InertLemmas.

Section PlainNameLemmas.

Local Open Scope N_scope.

Local Arguments codePoints : simpl never.
Local Arguments lowerCodePoint : simpl never.

Lemma plainUnit_iff (u : N) :
  plainUnit u = true <-> u < 65536 /\ u <> SIGMA /\ u <> CAPITAL_I_DOT.
Proof.
  unfold plainUnit.
  rewrite !andb_true_iff, !negb_true_iff, N.ltb_lt, !N.eqb_neq. tauto.
Qed.

Lemma plainName_Forall (s : jsstring) :
  plainName s
  <-> Forall (fun u => u < 65536 /\ u <> SIGMA /\ u <> CAPITAL_I_DOT) s.
Proof.
  unfold plainName. rewrite forallb_forall, Forall_forall.
  split; intros H u Hu; apply plainUnit_iff; auto.
Qed.

(** The code points of such a name: none of the two letters, all below
    U+110000. *)
Lemma plainName_codePoints (s : jsstring) :
  plainName s ->
  ~ In SIGMA (codePoints s) /\ ~ In CAPITAL_I_DOT (codePoints s)
  /\ Forall (fun c => c < 1114112) (codePoints s).
Proof.
  intros H. apply plainName_Forall in H.
  assert (Hb : Forall (fun u => u < 65536) s).
  { revert H. apply Forall_impl. tauto. }
  rewrite Forall_forall in H. split; [|split].
  - intros Hin. destruct (In_codePoints s SIGMA Hin) as [[H1|H1] _].
    + destruct (H _ H1) as (_ & X & _). now apply X.
    + unfold SIGMA in H1. lia.
  - intros Hin. destruct (In_codePoints s CAPITAL_I_DOT Hin) as [[H1|H1] _].
    + destruct (H _ H1) as (_ & _ & X). now apply X.
    + unfold CAPITAL_I_DOT in H1. lia.
  - apply Forall_forall. intros c Hin.
    destruct (In_codePoints s c Hin) as [_ H2]. auto.
Qed.

(** Without the two letters the lower case is one code point for each code
    point, whatever stands around it. *)
Lemma lowerCodePoints_plain (cps : list N) (before : bool) :
  ~ In SIGMA cps -> ~ In CAPITAL_I_DOT cps ->
  lowerCodePoints before cps = map lowerCodePoint cps.
Proof.
  revert before.
  induction cps as [|c r IH]; intros before Hs Hd; [reflexivity|].
  cbn [lowerCodePoints map].
  rewrite IH
    by (intros X; first [apply Hs; now right | apply Hd; now right]).
  destruct (N.eqb_spec c SIGMA) as [E|_]; [exfalso; apply Hs; now left|].
  destruct (N.eqb_spec c CAPITAL_I_DOT) as [E|_];
    [exfalso; apply Hd; now left|].
  reflexivity.
Qed.

Lemma toLowerCase_plain (s : jsstring) :
  plainName s -> toLowerCase s = lowerSimple s.
Proof.
  intros H. destruct (plainName_codePoints s H) as (H1 & H2 & _).
  unfold toLowerCase, lowerSimple.
  now rewrite (lowerCodePoints_plain _ false H1 H2).
Qed.

End PlainNameLemmas.

Section RoundTripLemmas.

Local Open Scope N_scope.

Local Arguments codePoints : simpl never.
Local Arguments unitsOf : simpl never.
Local Arguments lowerCodePoint : simpl never.
Local Arguments isHighSurrogate : simpl never.
Local Arguments isLowSurrogate : simpl never.

Lemma separated_cons (c : N) (r : list N) :
  separated (c :: r) = true
  <-> (isHighSurrogate c = true -> headNotLow r) /\ separated r = true.
Proof.
  destruct r as [|d r'].
  - simpl. tauto.
  - cbn [separated headNotLow].
    rewrite andb_true_iff, negb_true_iff, andb_false_iff.
    destruct (isHighSurrogate c), (isLowSurrogate d);
      intuition congruence.
Qed.

Lemma surrogate_halves (d : N) :
  isSurrogate d = isHighSurrogate d || isLowSurrogate d.
Proof.
  unfold isSurrogate, isHighSurrogate, isLowSurrogate.
  destruct (N.leb_spec 55296 d), (N.leb_spec d 57343),
    (N.leb_spec d 56319), (N.leb_spec 56320 d); simpl; try reflexivity; lia.
Qed.

(** The lower case of a code point is a surrogate, high or low, where the
    code point is one. *)
Lemma lowerCodePoint_halves (c : N) :
  isHighSurrogate (lowerCodePoint c) = isHighSurrogate c
  /\ isLowSurrogate (lowerCodePoint c) = isLowSurrogate c.
Proof.
  destruct (lowerCodePoint_surrogate c) as (H1 & H2 & _).
  destruct (isSurrogate c) eqn:S.
  - now rewrite (H1 eq_refl).
  - specialize (H2 eq_refl). rewrite surrogate_halves in S, H2.
    apply orb_false_iff in S as [S1 S2]. apply orb_false_iff in H2 as [T1 T2].
    now rewrite S1, S2, T1, T2.
Qed.

Lemma separated_map (cps : list N) :
  separated cps = true -> separated (map lowerCodePoint cps) = true.
Proof.
  induction cps as [|c r IH]; [trivial|].
  intros H. apply separated_cons in H as [H1 H2]. cbn [map].
  apply separated_cons. split; [|auto].
  destruct (lowerCodePoint_halves c) as [Ec _]. rewrite Ec. intros Hc.
  specialize (H1 Hc). destruct r as [|d r']; [trivial|].
  cbn [map headNotLow] in *.
  destruct (lowerCodePoint_halves d) as [_ Ed]. now rewrite Ed.
Qed.

(** The code points of the lower case are the small letters of the code
    points. *)
Lemma codePoints_lowerSimple (s : jsstring) :
  Forall (fun c => c < 1114112) (codePoints s) ->
  codePoints (lowerSimple s) = map lowerCodePoint (codePoints s).
Proof.
  intros H. unfold lowerSimple. apply codePoints_codeUnits.
  - apply Forall_forall. intros d Hd. apply in_map_iff in Hd as (c & <- & Hc).
    rewrite Forall_forall in H. now apply lowerCodePoint_surrogate, H.
  - apply separated_map, codePoints_separated.
Qed.

End RoundTripLemmas.

Section AccentLemmas.

Local Open Scope N_scope.

Local Arguments codePoints : simpl never.
Local Arguments unitsOf : simpl never.
Local Arguments lowerCodePoint : simpl never.
Local Arguments isHighSurrogate : simpl never.
Local Arguments isLowSurrogate : simpl never.

Lemma family_inert (c d : N) :
  sameAccentFamily c d ->
  c = d \/ (inertUnit c = true /\ inertUnit d = true).
Proof.
  intros [E|(fam & Hf & Hc & Hd)]; [now left | right].
  split; apply accent_inert; unfold ACCENT_LETTERS; apply in_concat;
    exists fam; auto.
Qed.

Lemma family_refl (c : N) : sameAccentFamily c c.
Proof. now left. Qed.

Lemma Forall2_family_refl (l : list N) : Forall2 sameAccentFamily l l.
Proof. induction l; constructor; auto using family_refl. Qed.

Lemma Forall2_flat_map {A B : Type} (R : A -> A -> Prop) (Q : B -> B -> Prop)
    (g : A -> list B) (x y : list A) :
  (forall c d, R c d -> Forall2 Q (g c) (g d)) ->
  Forall2 R x y -> Forall2 Q (flat_map g x) (flat_map g y).
Proof.
  intros Hg. induction 1 as [|c d x y Hcd _ IH]; [constructor|].
  cbn [flat_map]. apply Forall2_app; auto.
Qed.

Lemma Forall2_map {A B : Type} (R : A -> A -> Prop) (Q : B -> B -> Prop)
    (g : A -> B) (x y : list A) :
  (forall c d, R c d -> Q (g c) (g d)) ->
  Forall2 R x y -> Forall2 Q (map g x) (map g y).
Proof.
  intros Hg. induction 1 as [|c d x y Hcd _ IH]; [constructor|].
  cbn [map]. constructor; auto.
Qed.

Lemma family_codePoints_len (n : nat) (a b : jsstring) :
  (List.length a <= n)%nat ->
  Forall2 sameAccentFamily a b ->
  Forall2 sameAccentFamily (codePoints a) (codePoints b).
Proof.
  revert a b. induction n as [|n IH]; intros a b Hlen H.
  - destruct H; [constructor | simpl in Hlen; lia].
  - destruct H as [|u u' a b Hu H]; [constructor|].
    destruct H as [|v v' a b Hv H].
    + rewrite !codePoints_one. constructor; [assumption | constructor].
    + simpl in Hlen. rewrite !codePoints_two.
      assert (Eu : isHighSurrogate u' = isHighSurrogate u
                   /\ (isHighSurrogate u = true -> u = u')).
      { destruct (family_inert u u' Hu) as [->|[X Y]]; [auto|].
        apply inertUnit_facts in X as (X & _).
        apply inertUnit_facts in Y as (Y & _). split; congruence. }
      assert (Ev : isLowSurrogate v' = isLowSurrogate v
                   /\ (isLowSurrogate v = true -> v = v')).
      { destruct (family_inert v v' Hv) as [->|[X Y]]; [auto|].
        apply inertUnit_facts in X as (_ & X & _).
        apply inertUnit_facts in Y as (_ & Y & _). split; congruence. }
      destruct Eu as [Eu1 Eu2]. destruct Ev as [Ev1 Ev2].
      rewrite Eu1, Ev1.
      destruct (isHighSurrogate u) eqn:Hh, (isLowSurrogate v) eqn:Hl;
        cbn [andb].
      * rewrite <- (Eu2 eq_refl), <- (Ev2 eq_refl).
        constructor; [apply family_refl|]. apply IH; [lia | assumption].
      * constructor; [assumption|].
        apply IH; [simpl; lia | now constructor].
      * constructor; [assumption|].
        apply IH; [simpl; lia | now constructor].
      * constructor; [assumption|].
        apply IH; [simpl; lia | now constructor].
Qed.

Lemma family_lowerCodePoint (c d : N) :
  sameAccentFamily c d ->
  sameAccentFamily (lowerCodePoint c) (lowerCodePoint d).
Proof.
  intros H. destruct (family_inert c d H) as [->|[X Y]].
  - apply family_refl.
  - apply inertUnit_facts in X as (_ & _ & X & _).
    apply inertUnit_facts in Y as (_ & _ & Y & _).
    now rewrite X, Y.
Qed.

Lemma family_unitsOf (c d : N) :
  sameAccentFamily c d -> Forall2 sameAccentFamily (unitsOf c) (unitsOf d).
Proof.
  intros H. destruct (family_inert c d H) as [->|[X Y]].
  - apply Forall2_family_refl.
  - apply inertUnit_facts in X as (_ & _ & _ & X).
    apply inertUnit_facts in Y as (_ & _ & _ & Y).
    rewrite X, Y. constructor; [assumption | constructor].
Qed.

(** Lower case keeps accent families apart from everything else. *)
Lemma family_lowerSimple (a b : jsstring) :
  Forall2 sameAccentFamily a b ->
  Forall2 sameAccentFamily (lowerSimple a) (lowerSimple b).
Proof.
  intros H. unfold lowerSimple, codeUnits.
  apply (Forall2_flat_map sameAccentFamily); [exact family_unitsOf|].
  apply (Forall2_map sameAccentFamily); [exact family_lowerCodePoint|].
  apply (family_codePoints_len (List.length a)); [apply Nat.le_refl | assumption].
Qed.

End AccentLemmas.

(* ================================================================== *)
(** * Spelling variants and the key                                     *)
(* ================================================================== *)

Section VariantLemmas.

Local Open Scope N_scope.

(** [normalizeName] with the trimming done last but one. *)
Lemma normalizeName_trim (name : jsstring) :
  normalizeName name
  = collapseSpaces (trim (map foldAccents (toLowerCase name))).
Proof.
  rewrite normalizeName_units.
  now rewrite (trim_map foldAccents isWhiteSpace_foldAccents).
Qed.

(** The key of a name without the two letters. *)
Lemma normalizeName_letterKey (name : jsstring) :
  plainName name -> normalizeName name = letterKey name.
Proof.
  intros H. rewrite normalizeName_trim. unfold letterKey.
  now rewrite (toLowerCase_plain name H).
Qed.

Lemma Forall2_map_eq {A B : Type} (R : A -> A -> Prop) (g : A -> B)
    (a b : list A) :
  (forall x y, R x y -> g x = g y) -> Forall2 R a b -> map g a = map g b.
Proof.
  intros Hg. induction 1 as [|x y a b Hxy _ IH]; simpl; [reflexivity|].
  now rewrite (Hg _ _ Hxy), IH.
Qed.

Lemma Forall2_map_r {A : Type} (R : A -> A -> Prop) (g : A -> A)
    (a : list A) :
  (forall x, R x (g x)) -> Forall2 R a (map g a).
Proof. intros Hg. induction a; simpl; constructor; auto. Qed.

Lemma blank_foldAccents (w : jsstring) : blank w -> blank (map foldAccents w).
Proof. apply blank_map. exact isWhiteSpace_foldAccents. Qed.

(** Every difference the specification lists leaves [letterKey] as it
    is. *)
Lemma variantStep_letterKey (a b : jsstring) :
  variantStep a b -> letterKey a = letterKey b.
Proof.
  intros H. unfold letterKey.
  destruct H as [a b F | a b F | w1 a w2 H1 H2 | p w1 w2 s H1 H2 N1 N2].
  - unfold lowerSimple. f_equal. f_equal. f_equal. f_equal.
    apply (Forall2_map_eq sameLetter); [|assumption].
    intros c d Hcd. exact Hcd.
  - f_equal. f_equal.
    apply (Forall2_map_eq sameAccentFamily); [exact foldAccents_family|].
    now apply family_lowerSimple.
  - rewrite lowerSimple_outer by now apply blank_inert.
    rewrite !map_app. f_equal.
    apply trim_outer; now apply blank_foldAccents.
  - rewrite !lowerSimple_run by (assumption || now apply blank_inert).
    rewrite !collapse_trim. f_equal. rewrite !map_app.
    unfold collapseSpaces. apply collapseFrom_run.
    + now apply blank_foldAccents.
    + now apply blank_foldAccents.
    + destruct w1; [congruence | discriminate].
    + destruct w2; [congruence | discriminate].
Qed.

Lemma sameSpelling_letterKey (a b : jsstring) :
  sameSpelling a b -> letterKey a = letterKey b.
Proof.
  induction 1 as [a b H | a | a b _ IH | a b c _ IH1 _ IH2].
  - now apply variantStep_letterKey.
  - reflexivity.
  - now symmetry.
  - now transitivity (letterKey b).
Qed.

Lemma runStep_cons (c : N) (x y : jsstring) :
  runStep x y -> runStep (c :: x) (c :: y).
Proof.
  intros [p w1 w2 s H1 H2 N1 N2].
  exact (run_step (c :: p) w1 w2 s H1 H2 N1 N2).
Qed.

Lemma runs_cons (c : N) (x y : jsstring) :
  clos_refl_trans jsstring runStep x y ->
  clos_refl_trans jsstring runStep (c :: x) (c :: y).
Proof.
  induction 1 as [x y H | x | x y z _ IH1 _ IH2].
  - apply rt_step. now apply runStep_cons.
  - apply rt_refl.
  - eapply rt_trans; eassumption.
Qed.

Lemma trimStart_length (s : jsstring) :
  (List.length (trimStart s) <= List.length s)%nat.
Proof.
  unfold trimStart. induction s as [|c r IH]; simpl; [lia|].
  destruct (isWhiteSpace c); simpl; lia.
Qed.

(** Collapsing replaces runs of white space, one after the other. *)
Lemma collapse_runs (n : nat) (s : jsstring) :
  (List.length s <= n)%nat ->
  clos_refl_trans jsstring runStep s (collapseSpaces s).
Proof.
  unfold collapseSpaces. revert s.
  induction n as [|n IH]; intros [|c r] Hlen; simpl in *;
    try apply rt_refl; try lia.
  destruct (isWhiteSpace c) eqn:Hc.
  - rewrite collapseFrom_true.
    destruct (trimStart_split r) as (w & Hw & E).
    apply rt_trans with (y := 32 :: trimStart r).
    + apply rt_step. rewrite E at 1.
      apply (run_step [] (c :: w) [32] (trimStart r)).
      * now constructor.
      * constructor; [reflexivity | constructor].
      * discriminate.
      * discriminate.
    + apply runs_cons. apply IH.
      pose proof (trimStart_length r). lia.
  - apply runs_cons. apply IH. lia.
Qed.

Lemma runs_sameSpelling (x y : jsstring) :
  clos_refl_trans jsstring runStep x y -> sameSpelling x y.
Proof.
  induction 1 as [x y H | x | x y z _ IH1 _ IH2].
  - apply rst_step. destruct H. now apply variant_run.
  - apply rst_refl.
  - eapply rst_trans; eassumption.
Qed.

(** A name without the two letters is a spelling variant of its own key. *)
Lemma normalizeName_variant (a : jsstring) :
  plainName a -> sameSpelling a (normalizeName a).
Proof.
  intros Pa. rewrite normalizeName_units, (toLowerCase_plain a Pa).
  apply rst_trans with (y := lowerSimple a).
  { apply rst_step, variant_case.
    rewrite codePoints_lowerSimple by now apply plainName_codePoints.
    apply Forall2_map_r.
    intros c. unfold sameLetter. symmetry. apply lowerCodePoint_idem. }
  apply rst_trans with (y := trim (lowerSimple a)).
  { destruct (trim_split (lowerSimple a)) as (w1 & w2 & H1 & H2 & E).
    rewrite E at 1. apply rst_step. now apply variant_outer. }
  apply rst_trans with (y := map foldAccents (trim (lowerSimple a))).
  { apply rst_step, variant_accent, Forall2_map_r.
    apply sameAccentFamily_foldAccents. }
  apply runs_sameSpelling. eapply collapse_runs. apply Nat.le_refl.
Qed.

Lemma normalizeName_iff (a b : jsstring) :
  plainName a -> plainName b ->
  (normalizeName a = normalizeName b <-> sameSpelling a b).
Proof.
  intros Pa Pb. split.
  - intros H. apply rst_trans with (y := normalizeName a).
    + now apply normalizeName_variant.
    + rewrite H. apply rst_sym. now apply normalizeName_variant.
  - intros H. rewrite (normalizeName_letterKey a Pa).
    rewrite (normalizeName_letterKey b Pb).
    now apply sameSpelling_letterKey.
Qed.

End VariantLemmas.

(* ================================================================== *)
(** * Player identity                                                   *)
(* ================================================================== *)

(** Two names that differ only in the case of their letters, and have two
    keys.  The small sigma of the one is final in the lower case of the
    other, where the capital sigma ends a word; and the lower case of the
    capital I with dot above is a small i and a combining dot, which is not
    the small i. *)
Lemma case_variants_two_keys :
  sameSpelling (js "ΑΣ") (js "ασ")
  /\ normalizeName (js "ΑΣ") = js "ας"
  /\ normalizeName (js "ασ") = js "ασ"
  /\ playerKey (js "ΑΣ") <> playerKey (js "ασ")
  /\ sameSpelling (js "İ") (js "i")
  /\ normalizeName (js "İ") = [105; 775]%N
  /\ normalizeName (js "i") = [105]%N
  /\ playerKey (js "İ") <> playerKey (js "i").
Proof.
  repeat match goal with |- _ /\ _ => split end.
  - apply rst_step, variant_case.
    assert (E1 : codePoints (js "ΑΣ") = [913; 931]%N) by reflexivity.
    assert (E2 : codePoints (js "ασ") = [945; 963]%N) by reflexivity.
    rewrite E1, E2.
    constructor; [reflexivity|]. constructor; [reflexivity | constructor].
  - vm_compute. reflexivity.
  - vm_compute. reflexivity.
  - vm_compute. discriminate.
  - apply rst_step, variant_case.
    assert (E1 : codePoints (js "İ") = [304]%N) by reflexivity.
    assert (E2 : codePoints (js "i") = [105]%N) by reflexivity.
    rewrite E1, E2.
    constructor; [reflexivity | constructor].
  - vm_compute. reflexivity.
  - vm_compute. reflexivity.
  - vm_compute. discriminate.
Qed.

(** C1. Player identity is decided by the normalization key alone.  For
    names that hold no Greek capital sigma and no capital I with dot above,
    [normalizeName] gives two raw names the same key if and only if they
    differ only in the case of their letters, in accents of the listed
    families, in leading or trailing white space or in runs of white space
    ([sameSpelling]).  The aggregator writes, for a winner, the entry of
    the key [normalizeName(applyNameMapping(raw))] and no other entry, so
    two occurrences are credited to the same player exactly when that key is
    the same for both; it fails on a name exactly when that key does not
    exist.  In particular "Cédric", "cedric" and "CEDRIC  " have one key,
    and so have "Łukasz" and "łukasz". *)
Theorem player_identity_by_key :
  (forall a b : jsstring,
      plainName a -> plainName b ->
      (normalizeName a = normalizeName b <-> sameSpelling a b))
  /\ (forall (r1 r2 : Result) (pmA pmA' pmB pmB' : PlayerMap) (a b : jsstring),
        creditWinner r1 pmA a = Some pmA' ->
        creditWinner r2 pmB b = Some pmB' ->
        ((exists k, assocGet k pmA' <> assocGet k pmA
                    /\ assocGet k pmB' <> assocGet k pmB)
         <-> playerKey a = playerKey b))
  /\ (forall (r : Result) (pm : PlayerMap) (a : jsstring),
        creditWinner r pm a = None <-> playerKey a = None)
  /\ normalizeName (js "Cédric") = normalizeName (js "cedric")
  /\ normalizeName (js "cedric") = normalizeName (js "CEDRIC  ")
  /\ normalizeName (js "Łukasz") = normalizeName (js "łukasz").
Proof.
  split; [exact normalizeName_iff|].
  split; [|split; [exact creditWinner_key
                  | split; [|split]; vm_compute; reflexivity]].
  intros r1 r2 pmA pmA' pmB pmB' a b Ha Hb. split.
  - intros (k & Hka & Hkb).
    apply (creditWinner_changes _ _ _ _ k Ha) in Hka.
    apply (creditWinner_changes _ _ _ _ k Hb) in Hkb. congruence.
  - intros E.
    destruct (creditWinner_entry _ _ _ _ Ha) as (k & p & Hk & _).
    exists k. split.
    + now apply (creditWinner_changes _ _ _ _ k Ha).
    + apply (creditWinner_changes _ _ _ _ k Hb). congruence.
Qed.

Lemma player_identity_by_key_witness :
  (normalizeName (js "Cédric") = normalizeName (js "CEDRIC  ")
   <-> sameSpelling (js "Cédric") (js "CEDRIC  "))
  /\ ((exists k,
          assocGet k [(js "cedric",
                       mkPlayer (js "Cédric")
                         [(js "championship_mix", 1%nat)] 1)]
          <> assocGet k []
          /\ assocGet k [(js "cedric",
                          mkPlayer (js "cedric")
                            [(js "competition_zomercyclus", 1%nat)] 1)]
             <> assocGet k [])
      <-> playerKey (js "Cédric") = playerKey (js "cedric")).
Proof.
  split.
  - apply (proj1 player_identity_by_key (js "Cédric") (js "CEDRIC  ")).
    + vm_compute. reflexivity.
    + vm_compute. reflexivity.
  - apply (proj1 (proj2 player_identity_by_key)
             (mkResult 2019 (js "mix") championship (js "A") [js "Cédric"])
             (mkResult 2020 (js "zomercyclus") competition (js "A")
                [js "cedric"])
             [] _ [] _ (js "Cédric") (js "cedric")).
    + vm_compute. reflexivity.
    + vm_compute. reflexivity.
Defined.

Section InvariantLemmas.

Lemma assocSet_set {V : Type} (k : jsstring) (v1 v2 : V)
    (l : list (jsstring * V)) :
  assocSet k v2 (assocSet k v1 l) = assocSet k v2 l.
Proof.
  induction l as [|[k0 v0] l IH]; simpl.
  - now rewrite jseqb_refl.
  - destruct (JsString.eqb k k0) eqn:E; simpl; rewrite E; [reflexivity|].
    now rewrite IH.
Qed.

Lemma incrementWin_eq (key : jsstring) (wins : list (jsstring * nat)) :
  incrementWin key wins
  = assocSet key
      (match assocGet key wins with Some n => n + 1 | None => 1 end) wins.
Proof.
  unfold incrementWin.
  destruct (assocGet key wins) as [[|n]|] eqn:E.
  - rewrite assocGet_set_same. apply assocSet_set.
  - now rewrite E.
  - rewrite assocGet_set_same. apply assocSet_set.
Qed.

Lemma assocGet_None_keys {V : Type} (k : jsstring) (l : list (jsstring * V)) :
  assocGet k l = None -> ~ In k (map fst l).
Proof.
  induction l as [|[k0 v0] l IH]; simpl; [tauto|].
  destruct (jseqb_spec k k0) as [->|Hk]; [discriminate|].
  intros H [E|HIn]; [congruence | now apply IH].
Qed.

Lemma assocGet_In {V : Type} (k : jsstring) (v : V) (l : list (jsstring * V)) :
  assocGet k l = Some v -> In (k, v) l.
Proof.
  induction l as [|[k0 v0] l IH]; simpl; [discriminate|].
  destruct (jseqb_spec k k0) as [->|Hk].
  - intros E. injection E as ->. now left.
  - intros E. right. now apply IH.
Qed.

Lemma assocSet_keys {V : Type} (k : jsstring) (v : V)
    (l : list (jsstring * V)) :
  map fst (assocSet k v l)
  = match assocGet k l with
    | Some _ => map fst l
    | None => map fst l ++ [k]
    end.
Proof.
  induction l as [|[k0 v0] l IH]; simpl; [reflexivity|].
  destruct (JsString.eqb k k0); simpl; [reflexivity|].
  rewrite IH. now destruct (assocGet k l).
Qed.

Lemma assocSet_NoDup {V : Type} (k : jsstring) (v : V)
    (l : list (jsstring * V)) :
  NoDup (map fst l) -> NoDup (map fst (assocSet k v l)).
Proof.
  intros H. rewrite assocSet_keys.
  destruct (assocGet k l) eqn:E; [assumption|].
  apply NoDup_app; [assumption | repeat constructor; simpl; tauto |].
  intros x Hx [<-|[]]. now apply (assocGet_None_keys k l).
Qed.

Lemma assocSet_In {V : Type} (k k' : jsstring) (v x : V)
    (l : list (jsstring * V)) :
  In (k', x) (assocSet k v l) -> x = v \/ In (k', x) l.
Proof.
  induction l as [|[k0 v0] l IH]; simpl.
  - intros [E|[]]. left. congruence.
  - destruct (JsString.eqb k k0); simpl.
    + intros [E|H]; [left; congruence | right; now right].
    + intros [E|H]; [right; now left|].
      destruct (IH H); [now left | right; now right].
Qed.

Lemma assocSet_sum (k : jsstring) (v : nat) (l : list (jsstring * nat)) :
  sumWins (assocSet k v l)
  + match assocGet k l with Some n => n | None => 0 end
  = sumWins l + v.
Proof.
  unfold sumWins. induction l as [|[k0 v0] l IH]; simpl; [lia|].
  destruct (JsString.eqb k k0); simpl; lia.
Qed.

Lemma incrementWin_sum (key : jsstring) (wins : list (jsstring * nat)) :
  sumWins (incrementWin key wins) = sumWins wins + 1.
Proof.
  rewrite incrementWin_eq.
  pose proof (assocSet_sum key
    (match assocGet key wins with Some n => n + 1 | None => 1 end) wins).
  destruct (assocGet key wins); lia.
Qed.

Lemma incrementWin_invariant (dn : jsstring) (p : Player) (key : jsstring) :
  totalWins p = sumWins (wins p) ->
  NoDup (map fst (wins p)) ->
  (forall k n, In (k, n) (wins p) -> 1 <= n) ->
  playerInvariant
    (mkPlayer dn (incrementWin key (wins p)) (totalWins p + 1)).
Proof.
  intros Ht Hd Hn. unfold playerInvariant; simpl.
  split; [rewrite incrementWin_sum; lia|].
  rewrite incrementWin_eq.
  split; [now apply assocSet_NoDup|].
  intros k n H. apply assocSet_In in H as [->|H]; [|now apply (Hn k)].
  destruct (assocGet key (wins p)); lia.
Qed.

Lemma creditWinner_invariant (result : Result) (playerMap : PlayerMap)
    (name : jsstring) (playerMap' : PlayerMap) :
  Forall playerInvariant (map snd playerMap) ->
  creditWinner result playerMap name = Some playerMap' ->
  Forall playerInvariant (map snd playerMap').
Proof.
  intros Hpm. unfold creditWinner.
  destruct (applyNameMapping name) as [canonicalName|]; [|discriminate].
  intros H. injection H as <-.
  rewrite Forall_forall in *. intros x Hx.
  apply assocSet_values in Hx as [->|Hx]; [|now apply Hpm].
  destruct (assocGet (normalizeName canonicalName) playerMap) as [q|] eqn:Eq.
  - assert (Hq : playerInvariant q).
    { apply Hpm. apply assocGet_In in Eq.
      change q with (snd (normalizeName canonicalName, q)).
      now apply in_map. }
    destruct Hq as (Ht & Hd & Hn).
    destruct (countDiacritics (displayName q) <? countDiacritics canonicalName);
      now apply incrementWin_invariant.
  - apply incrementWin_invariant; simpl.
    + reflexivity.
    + constructor.
    + intros k n [].
Qed.

Lemma reachable_invariant (playerMap : PlayerMap) :
  reachable playerMap -> Forall playerInvariant (map snd playerMap).
Proof.
  induction 1 as [|result pm name pm' _ IH H]; [constructor|].
  exact (creditWinner_invariant _ _ _ _ IH H).
Qed.

Lemma creditWinners_reachable (result : Result) (names : list jsstring)
    (playerMap playerMap' : PlayerMap) :
  reachable playerMap ->
  creditWinners result playerMap names = Some playerMap' ->
  reachable playerMap'.
Proof.
  revert playerMap. induction names as [|n names IH]; intros pm Hpm; simpl.
  - intros E. injection E as <-. assumption.
  - destruct (creditWinner result pm n) as [pm1|] eqn:E1; [|discriminate].
    apply IH. exact (reach_credit result pm n pm1 Hpm E1).
Qed.

Lemma creditResults_reachable (allResults : list Result)
    (playerMap playerMap' : PlayerMap) :
  reachable playerMap ->
  creditResults playerMap allResults = Some playerMap' ->
  reachable playerMap'.
Proof.
  revert playerMap. induction allResults as [|r rs IH]; intros pm Hpm; simpl.
  - intros E. injection E as <-. assumption.
  - destruct (creditWinners r pm (winners r)) as [pm1|] eqn:E1; [|discriminate].
    apply IH. exact (creditWinners_reachable _ _ _ _ Hpm E1).
Qed.

Lemma insertPlayer_In (p x : Player) (sorted : list Player) :
  In x (insertPlayer p sorted) <-> x = p \/ In x sorted.
Proof.
  induction sorted as [|q r IH]; simpl.
  - intuition.
  - destruct (totalWins p <? totalWins q); simpl; rewrite ?IH; intuition.
Qed.

Lemma sortPlayers_In (x : Player) (players : list Player) :
  In x (sortPlayers players) <-> In x players.
Proof.
  unfold sortPlayers. induction players as [|p r IH]; simpl; [tauto|].
  rewrite insertPlayer_In, IH. intuition.
Qed.

End InvariantLemmas.

(* ================================================================== *)
(** * The win counts of a player                                        *)
(* ================================================================== *)

(** C2. For every sequence of results and every player the aggregator
    produces, [totalWins] is the sum of the values of [wins], and every
    category key of [wins] has a count of at least 1; this holds of every
    player in the map after each single winner ([reachable]), and of the
    players returned at the end. *)
Theorem wins_invariant :
  (forall playerMap : PlayerMap,
      reachable playerMap -> Forall playerInvariant (map snd playerMap))
  /\ (forall (allResults : list Result) (players : list Player),
        buildPlayerStats allResults = Some players ->
        Forall playerInvariant players).
Proof.
  split; [exact reachable_invariant|].
  intros allResults players. unfold buildPlayerStats.
  destruct (creditResults [] allResults) as [pm|] eqn:E; [|discriminate].
  intros H. injection H as <-.
  pose proof (reachable_invariant pm
                (creditResults_reachable _ _ _ reach_empty E)) as Hpm.
  rewrite Forall_forall in *. intros x Hx.
  apply Hpm. now apply sortPlayers_In.
Qed.

Lemma wins_invariant_witness :
  Forall playerInvariant
    [mkPlayer (js "Piet")
       [(js "championship_doubletten", 2); (js "competition_zomercyclus", 1)] 3;
     mkPlayer (js "Klaas") [(js "championship_doubletten", 1)] 1].
Proof.
  apply (proj2 wins_invariant
           [mkResult 2019 (js "doubletten") championship (js "A")
              [js "Klaas"; js "Piet"];
            mkResult 2020 (js "doubletten") championship (js "A")
              [js "Piet"];
            mkResult 2020 (js "zomercyclus") competition (js "A")
              [js "piet"]]).
  vm_compute. reflexivity.
Defined.

Section RowLemmas.

Lemma skipToYear_app (pre s : list jsstring) :
  Forall notYear pre -> skipToYear (pre ++ s) = skipToYear s.
Proof.
  induction 1 as [|c pre Hc _ IH]; simpl; [reflexivity|].
  unfold notYear in Hc. now rewrite Hc.
Qed.

Lemma skipToYear_year (y : jsstring) (s : list jsstring) :
  isYear y = true -> skipToYear (y :: s) = y :: s.
Proof. intros H. simpl. now rewrite H. Qed.

Lemma skipToYear_length (s : list jsstring) :
  List.length (skipToYear s) <= List.length s.
Proof.
  induction s as [|c r IH]; simpl; [lia|].
  destruct (isYear c); simpl; lia.
Qed.

(** The second loop does not depend on the fuel, once there is enough. *)
Lemma variableRows_fuel (source : Source) (n m : nat) (cells : list jsstring) :
  List.length cells <= n -> List.length cells <= m ->
  variableRows n cells source = variableRows m cells source.
Proof.
  revert m cells. induction n as [|n IH]; intros m cells Hn Hm.
  - destruct cells; [|simpl in Hn; lia]. now destruct m.
  - destruct cells as [|y rest]; [now destruct m|].
    destruct m as [|m]; [simpl in Hm; lia|].
    simpl in Hn, Hm. simpl.
    destruct (isYear y); simpl.
    + f_equal. apply IH.
      * pose proof (skipToYear_length (tl rest)).
        destruct rest; simpl in *; lia.
      * pose proof (skipToYear_length (tl rest)).
        destruct rest; simpl in *; lia.
    + apply IH; lia.
Qed.

Lemma processData_variable (source : Source) (cells : list jsstring) :
  variableWidth source ->
  processData cells source
  = variableRows (List.length cells) (skipToYear cells) source.
Proof.
  intros [Hz Ht]. unfold processData.
  apply jseqb_neq in Hz, Ht. now rewrite Hz, Ht.
Qed.

Lemma extractNames_nil_guard (a : jsstring) :
  truthy a && negb (JsString.eqb a EN_DASH) && negb (JsString.eqb (trim a) [])
  = false ->
  extractNames a = [].
Proof.
  unfold extractNames.
  destruct (truthy a), (JsString.eqb a EN_DASH), (JsString.eqb (trim a) []),
    (JsString.eqb a HYPHEN); simpl; intros H; try discriminate; reflexivity.
Qed.

(** The tests on the Poule A cell let through what [extractNames] names. *)
Lemma pouleAResult_rowResult (source : Source) (y a : jsstring) :
  pouleAResult source (parseInt y) (Some a) = rowResult source y a.
Proof.
  unfold pouleAResult, rowResult.
  destruct (truthy a && negb (JsString.eqb a EN_DASH)
            && negb (JsString.eqb (trim a) [])) eqn:G.
  - now destruct (extractNames a).
  - now rewrite (extractNames_nil_guard a G).
Qed.

Lemma variableRows_nil (source : Source) (n : nat) :
  variableRows n [] source = [].
Proof. now destruct n. Qed.

Lemma variableRows_year (source : Source) (fuel : nat) (y a : jsstring)
    (rest : list jsstring) :
  isYear y = true ->
  variableRows (S fuel) (y :: a :: rest) source
  = pouleAResult source (parseInt y) (Some a)
    ++ variableRows fuel (skipToYear rest) source.
Proof. intros Hy. cbn [variableRows]. rewrite Hy. reflexivity. Qed.

Lemma processData_row (source : Source) (pre : list jsstring)
    (y a : jsstring) (skip rest : list jsstring) :
  variableWidth source ->
  Forall notYear pre -> isYear y = true -> Forall notYear skip ->
  processData (pre ++ y :: a :: skip ++ rest) source
  = rowResult source y a ++ processData rest source.
Proof.
  intros Hv Hpre Hy Hskip. rewrite !processData_variable by assumption.
  rewrite skipToYear_app by assumption. rewrite skipToYear_year by assumption.
  rewrite length_app. simpl List.length.
  rewrite Nat.add_succ_r, variableRows_year by assumption.
  rewrite pouleAResult_rowResult. f_equal.
  rewrite skipToYear_app by assumption.
  apply variableRows_fuel.
  - pose proof (skipToYear_length rest). rewrite length_app. lia.
  - apply skipToYear_length.
Qed.

Lemma processData_last_year (source : Source) (pre : list jsstring)
    (y : jsstring) :
  variableWidth source -> Forall notYear pre -> isYear y = true ->
  processData (pre ++ [y]) source = [].
Proof.
  intros Hv Hpre Hy. rewrite processData_variable by assumption.
  rewrite skipToYear_app by assumption. rewrite skipToYear_year by assumption.
  rewrite length_app. simpl List.length. rewrite Nat.add_succ_r.
  simpl variableRows. rewrite Hy. simpl. apply variableRows_nil.
Qed.

Lemma processData_no_year (source : Source) (pre : list jsstring) :
  variableWidth source -> Forall notYear pre -> processData pre source = [].
Proof.
  intros Hv Hpre. rewrite processData_variable by assumption.
  rewrite <- (app_nil_r pre) at 2. rewrite skipToYear_app by assumption.
  apply variableRows_nil.
Qed.

End RowLemmas.

Section PlainLemmas.

Local Open Scope N_scope.

Lemma splitNames_plain (s : jsstring) :
  Forall (fun c => isWhiteSpace c = false /\ c <> 44) s ->
  splitNames s = [s].
Proof.
  induction 1 as [|c r [Hw Hc] _ IH]; [reflexivity|].
  cbn [splitNames]. apply N.eqb_neq in Hc. rewrite Hc, Hw, IH. simpl.
  now destruct r as [|? [|? [|? ?]]].
Qed.

Lemma trimEnd_plain (s : jsstring) :
  Forall (fun c => isWhiteSpace c = false) s -> trimEnd s = s.
Proof.
  induction 1 as [|c r Hc _ IH]; [reflexivity|].
  simpl. rewrite IH, Hc. now destruct r.
Qed.

Lemma trim_plain (s : jsstring) :
  Forall (fun c => isWhiteSpace c = false) s -> trim s = s.
Proof.
  intros H. unfold trim, trimStart.
  destruct H as [|c r Hc H]; [reflexivity|].
  simpl dropWhile. rewrite Hc. apply trimEnd_plain. now constructor.
Qed.

Lemma isDigit_plain (c : N) :
  isDigit c = true -> isWhiteSpace c = false /\ c <> 44.
Proof.
  unfold isDigit. intros H. apply andb_true_iff in H as [Ha Hb].
  apply N.leb_le in Ha, Hb. split; [|lia].
  unfold isWhiteSpace, inClass; simpl. unit_cases.
Qed.

(** A cell of four digits names one winner: itself. *)
Lemma extractNames_year (y : jsstring) :
  isYear y = true -> extractNames y = [y].
Proof.
  destruct y as [|a [|b [|c [|d [|? ?]]]]]; try discriminate.
  simpl isYear. intros H.
  apply andb_true_iff in H as [H Hd]. apply andb_true_iff in H as [H Hc].
  apply andb_true_iff in H as [Ha Hb].
  apply isDigit_plain in Ha as [Wa Ca], Hb as [Wb Cb], Hc as [Wc Cc],
    Hd as [Wd Cd].
  assert (Hp : Forall (fun c => isWhiteSpace c = false /\ c <> 44) [a; b; c; d])
    by (repeat constructor; assumption).
  assert (Hw : Forall (fun c => isWhiteSpace c = false) [a; b; c; d])
    by (repeat constructor; assumption).
  unfold extractNames. rewrite (trim_plain _ Hw), (splitNames_plain _ Hp).
  cbn [map filter]. rewrite (trim_plain _ Hw).
  assert (E1 : JsString.eqb [a; b; c; d] EN_DASH = false).
  { change EN_DASH with [8211]. simpl. apply andb_false_r. }
  assert (E2 : JsString.eqb [a; b; c; d] HYPHEN = false).
  { change HYPHEN with [45]. simpl. apply andb_false_r. }
  unfold keepName, truthy. rewrite E1, E2. reflexivity.
Qed.

End PlainLemmas.

(* ================================================================== *)
(** * Rows of the variable-width categories                             *)
(* ================================================================== *)

(** C5. In a category other than zomercyclus and tete-a-tete, a row is a
    year token, the cell after it, and the cells up to the next year token:
    only the cell after the year gives winners ([rowResult]), the cells
    after it up to the next year token are dropped, a year token at the very
    end and cells before the first year give nothing.  The cells
    ["Jaar","A","B","2019","Piet, Klaas","Jan","2020","Marie","Els","Tom"]
    give the two results 2019 [Piet, Klaas] and 2020 [Marie]. *)
Theorem variable_width_rows :
  (forall (source : Source) (pre : list jsstring) (y a : jsstring)
          (skip rest : list jsstring),
      variableWidth source ->
      Forall notYear pre -> isYear y = true -> Forall notYear skip ->
      processData (pre ++ y :: a :: skip ++ rest) source
      = rowResult source y a ++ processData rest source)
  /\ (forall (source : Source) (pre : list jsstring) (y : jsstring),
        variableWidth source -> Forall notYear pre -> isYear y = true ->
        processData (pre ++ [y]) source = [])
  /\ (forall (source : Source) (pre : list jsstring),
        variableWidth source -> Forall notYear pre ->
        processData pre source = [])
  /\ processData
       (map js ["Jaar"; "A"; "B"; "2019"; "Piet, Klaas"; "Jan"; "2020";
                "Marie"; "Els"; "Tom"]%string)
       doublettenSource
     = [mkResult 2019 (js "doubletten") championship (js "A")
          [js "Piet"; js "Klaas"];
        mkResult 2020 (js "doubletten") championship (js "A") [js "Marie"]].
Proof.
  split; [exact processData_row|].
  split; [exact processData_last_year|].
  split; [exact processData_no_year|].
  vm_compute. reflexivity.
Qed.

Lemma variable_width_rows_witness :
  processData
    ([js "Jaar"; js "A"] ++ js "2019" :: js "Piet, Klaas"
       :: [js "Jan"; js "-"] ++ [js "2020"; js "Marie"])
    doublettenSource
  = rowResult doublettenSource (js "2019") (js "Piet, Klaas")
    ++ processData [js "2020"; js "Marie"] doublettenSource.
Proof.
  apply (proj1 variable_width_rows).
  - split; vm_compute; discriminate.
  - repeat constructor.
  - reflexivity.
  - repeat constructor.
Defined.

(** C10. In the same categories, four digits in the cell right after a year
    token are that row's Poule A cell: the result of the year has that
    string as its one winner, and the scan for the next year goes on from
    the cell after it. *)
Theorem year_after_year_is_winner
    (source : Source) (pre : list jsstring) (y1 y2 : jsstring)
    (rest : list jsstring) :
  variableWidth source ->
  Forall notYear pre -> isYear y1 = true -> isYear y2 = true ->
  processData (pre ++ y1 :: y2 :: rest) source
  = mkResult (parseInt y1) (category source) (type source) (js "A") [y2]
    :: processData rest source.
Proof.
  intros Hv Hpre H1 H2.
  pose proof (processData_row source pre y1 y2 [] rest Hv Hpre H1
                (Forall_nil _)) as E.
  simpl app in E. rewrite E. unfold rowResult. now rewrite (extractNames_year y2 H2).
Qed.

Lemma year_after_year_is_winner_witness :
  processData ([js "Jaar"; js "A"; js "B"]
                 ++ js "2019" :: js "2020" :: [js "Marie"; js "Els"])
    doublettenSource
  = mkResult 2019 (js "doubletten") championship (js "A") [js "2020"]
    :: processData [js "Marie"; js "Els"] doublettenSource.
Proof.
  apply (year_after_year_is_winner doublettenSource
           [js "Jaar"; js "A"; js "B"] (js "2019") (js "2020")
           [js "Marie"; js "Els"]).
  - split; vm_compute; discriminate.
  - repeat constructor.
  - reflexivity.
  - reflexivity.
Defined.

(* ================================================================== *)
(** * Placeholder cells and the fixed-width categories                  *)
(* ================================================================== *)

Section PlaceholderLemmas.

Lemma blank_trim (a : jsstring) : blank a -> trim a = [].
Proof.
  intros H. unfold trim.
  rewrite <- (app_nil_r a), trimStart_blank_app by assumption. reflexivity.
Qed.

(** In the variable-width categories a Poule A cell that is empty, blank or
    a dash gives no result: [extractNames] tests for both dashes. *)
Lemma rowResult_placeholder (source : Source) (y cell : jsstring) :
  cell = [] \/ blank cell \/ cell = EN_DASH \/ cell = HYPHEN ->
  rowResult source y cell = [].
Proof.
  unfold rowResult, extractNames.
  intros [-> | [H | [-> | ->]]]; try reflexivity.
  rewrite (blank_trim cell H). simpl.
  now rewrite !orb_true_r.
Qed.

(** No winner that [extractNames] gives is empty or a dash. *)
Lemma extractNames_keep (text name : jsstring) :
  In name (extractNames text) ->
  name <> [] /\ name <> EN_DASH /\ name <> HYPHEN.
Proof.
  unfold extractNames.
  destruct (negb (truthy text) || JsString.eqb text EN_DASH
            || JsString.eqb text HYPHEN || JsString.eqb (trim text) []);
    [intros []|].
  intros H. apply filter_In in H as [_ H]. unfold keepName, truthy in H.
  apply andb_true_iff in H as [H H3]. apply andb_true_iff in H as [H1 H2].
  apply negb_true_iff in H1, H2, H3.
  now rewrite jseqb_neq in H1, H2, H3.
Qed.

End PlaceholderLemmas.

(** C3. The zomercyclus and tete-a-tete branches test a winner cell against
    the en dash only: a cell that is an ASCII hyphen becomes a result whose
    one winner is the hyphen, where the branch of the other categories
    ([rowResult_placeholder]) gives none. *)
Theorem hyphen_cell_fixed_width :
  processData (map js ["Jaar"; "Naam"; "2020"; "Jan Jansen"; "2021"; "-"]%string)
    zomercyclusSource
  = [mkResult 2020 (js "zomercyclus") competition (js "A") [js "Jan Jansen"];
     mkResult 2021 (js "zomercyclus") competition (js "A") [js "-"]]
  /\ processData (map js ["Jaar"; "Heren"; "Dames"; "2021"; "-"; "–"]%string)
       teteATeteSource
     = [mkResult 2021 (js "tete-a-tete") championship (js "A") [js "-"]]
  /\ processData (map js ["Jaar"; "A"; "B"; "2021"; "-"; "Jan"]%string)
       doublettenSource
     = [].
Proof. repeat split; vm_compute; reflexivity. Qed.

Section TeteLemmas.

Lemma teteResult_category (source : Source) (y : jsstring)
    (w : option jsstring) (r : Result) :
  In r (teteResult source y w) ->
  rcategory r = category source /\ rtype r = type source.
Proof.
  unfold teteResult. destruct w as [w|]; [|intros []].
  destruct (truthy w && negb (JsString.eqb w EN_DASH)); [|intros []].
  intros [<-|[]]. split; reflexivity.
Qed.

Lemma teteATeteRows_category (n : nat) (source : Source)
    (cells : list jsstring) (r : Result) :
  List.length cells <= n ->
  In r (teteATeteRows cells source) ->
  rcategory r = category source /\ rtype r = type source.
Proof.
  revert cells. induction n as [|n IH]; intros [|y rest] Hlen; simpl;
    try (intros []); simpl in Hlen; try lia.
  intros H. apply in_app_or in H as [H|H].
  - destruct (isYear y); [|destruct H].
    apply in_app_or in H as [H|H]; eapply teteResult_category; eassumption.
  - destruct rest as [|m [|w rest']]; try destruct H.
    apply (IH rest'); [simpl in Hlen; lia | assumption].
Qed.

(** Every result of the tete-a-tete branch carries the category of the
    source as it is, so its category key is not one of the page. *)
Lemma tete_a_tete_category_key (source : Source) (cells : list jsstring)
    (r : Result) :
  category source = js "tete-a-tete" ->
  In r (processData cells source) ->
  rcategory r = js "tete-a-tete"
  /\ existsb (JsString.eqb (categoryKey r)) CATEGORY_MAP_KEYS = false.
Proof.
  intros Hc. unfold processData. rewrite Hc.
  change (JsString.eqb (js "tete-a-tete") (js "zomercyclus")) with false.
  change (JsString.eqb (js "tete-a-tete") (js "tete-a-tete")) with true.
  cbv iota. intros H.
  apply (teteATeteRows_category _ _ _ _ (Nat.le_refl _)) in H as [H1 H2].
  rewrite Hc in H1. split; [assumption|].
  unfold categoryKey. rewrite H1. now destruct (rtype r).
Qed.

End TeteLemmas.

(** C4. The tete-a-tete branch gives the men's and the women's winner of a
    row a result each, but both with the category "tete-a-tete" of the
    source, without a suffix: their category key is
    "championship_tete-a-tete", which is not a key of [CATEGORY_MAP]. *)
Theorem tete_a_tete_without_suffix :
  processData (map js ["Jaar"; "Heren"; "Dames"; "2020"; "Jan Jansen";
                       "Marie Pieters"]%string) teteATeteSource
  = [mkResult 2020 (js "tete-a-tete") championship (js "A") [js "Jan Jansen"];
     mkResult 2020 (js "tete-a-tete") championship (js "A")
       [js "Marie Pieters"]]
  /\ map categoryKey
       (processData (map js ["Jaar"; "Heren"; "Dames"; "2020"; "Jan Jansen";
                             "Marie Pieters"]%string) teteATeteSource)
     = [js "championship_tete-a-tete"; js "championship_tete-a-tete"]
  /\ existsb (JsString.eqb (js "championship_tete-a-tete")) CATEGORY_MAP_KEYS
     = false.
Proof. repeat split; vm_compute; reflexivity. Qed.

(* ================================================================== *)
(** * Winner cells with several names                                   *)
(* ================================================================== *)

Section SplitLemmas.

Local Open Scope N_scope.

Lemma isWhiteSpace_not_sep (c : N) :
  isWhiteSpace c = true -> c <> 44 /\ c <> 101 /\ c <> 110.
Proof.
  intros H. repeat split; intros ->; vm_compute in H; discriminate.
Qed.

(** One step of the scan, on a string that does not start with a comma. *)
Lemma splitNames_step (c : N) (r : jsstring) :
  c <> 44 ->
  splitNames (c :: r)
  = if enAt (c :: r) then [] :: splitNames (skipn 3 r)
    else consHead c (splitNames r).
Proof.
  intros H. apply N.eqb_neq in H. cbn [splitNames]. rewrite H.
  now destruct r as [|e [|n [|w r']]].
Qed.

Lemma splitNames_nonempty (s : jsstring) : splitNames s <> [].
Proof.
  destruct s as [|c r]; [discriminate|].
  destruct (N.eqb_spec c 44) as [->|Hc]; [discriminate|].
  rewrite splitNames_step by assumption.
  destruct (enAt (c :: r)); [discriminate|].
  now destruct (splitNames r).
Qed.

Lemma consHead_app (c : N) (X Y : list jsstring) :
  X <> [] -> consHead c (X ++ Y) = consHead c X ++ Y.
Proof. destruct X; [congruence | reflexivity]. Qed.

Lemma enAt_true (s : jsstring) :
  enAt s = true -> exists c e n w r, s = c :: e :: n :: w :: r.
Proof.
  destruct s as [|c [|e [|n [|w r]]]]; try discriminate.
  intros _. now exists c, e, n, w, r.
Qed.

(** A separator [sep] that the scan finds when it gets to it, and that no
    earlier match reaches into, ends the fragment before it. *)
Lemma splitNames_app_sep (P : jsstring -> Prop) (sep b : jsstring) :
  (forall c a, P (c :: a) -> P a) ->
  (forall c a, P (c :: a) -> enAt ((c :: a) ++ sep) = enAt (c :: a)) ->
  splitNames sep = [] :: splitNames b ->
  forall (k : nat) (a : jsstring),
    (List.length a <= k)%nat -> P a ->
    splitNames (a ++ sep) = splitNames a ++ splitNames b.
Proof.
  intros Hsuf Hen Hsep. induction k as [|k IH]; intros a Hlen Pa.
  - destruct a; [exact Hsep | simpl in Hlen; lia].
  - destruct a as [|c a']; [exact Hsep|].
    simpl in Hlen.
    destruct (N.eqb_spec c 44) as [->|Hc].
    + simpl. f_equal. apply IH; [lia | now apply (Hsuf 44)].
    + rewrite <- app_comm_cons, !splitNames_step by assumption.
      rewrite app_comm_cons, (Hen c a' Pa).
      destruct (enAt (c :: a')) eqn:E.
      * apply enAt_true in E as (c0 & e & n & w & r & E).
        injection E as -> ->. simpl. f_equal.
        apply IH; [simpl in Hlen; lia|].
        apply (Hsuf w), (Hsuf n), (Hsuf e), (Hsuf c0). exact Pa.
      * rewrite IH; [|lia | now apply (Hsuf c)].
        apply consHead_app, splitNames_nonempty.
Qed.

Lemma enAt_app_comma (a b : jsstring) :
  a <> [] -> enAt (a ++ 44 :: b) = enAt a.
Proof.
  destruct a as [|c [|e [|n [|w r]]]]; intros H; try congruence; simpl.
  - destruct b as [|? [|? ?]]; simpl; now rewrite ?andb_false_r.
  - destruct b as [|? ?]; simpl; now rewrite ?andb_false_r.
  - now rewrite andb_false_r.
  - reflexivity.
Qed.

Lemma splitNames_comma (a b : jsstring) :
  splitNames (a ++ 44 :: b) = splitNames a ++ splitNames b.
Proof.
  apply (splitNames_app_sep (fun _ => True) (44 :: b) b) with
    (k := List.length a); auto.
  intros c a' _. now apply enAt_app_comma.
Qed.

Lemma endsWithEn_tail (c : N) (a : jsstring) :
  endsWithEn (c :: a) = false -> endsWithEn a = false.
Proof. destruct a as [|e [|n [|w r]]]; simpl; auto. Qed.

Lemma enAt_app_en (a : jsstring) (w1 w2 : N) (b : jsstring) :
  isWhiteSpace w1 = true -> a <> [] -> endsWithEn a = false ->
  enAt (a ++ w1 :: 101 :: 110 :: w2 :: b) = enAt a.
Proof.
  intros H1 Ha He.
  destruct (isWhiteSpace_not_sep w1 H1) as (_ & N1 & N2).
  apply N.eqb_neq in N1, N2.
  destruct a as [|c [|e [|n [|w r]]]]; try congruence; simpl.
  - now rewrite N1, andb_false_r.
  - now rewrite N2, andb_false_r.
  - simpl in He. now rewrite He.
  - reflexivity.
Qed.

Lemma splitNames_en (a : jsstring) (w1 w2 : N) (b : jsstring) :
  isWhiteSpace w1 = true -> isWhiteSpace w2 = true ->
  endsWithEn a = false ->
  splitNames (a ++ w1 :: 101 :: 110 :: w2 :: b)
  = splitNames a ++ splitNames b.
Proof.
  intros H1 H2 He.
  apply (splitNames_app_sep (fun a => endsWithEn a = false)
           (w1 :: 101 :: 110 :: w2 :: b) b) with (k := List.length a); auto.
  - exact endsWithEn_tail.
  - intros c a' Hca. now apply enAt_app_en.
  - destruct (isWhiteSpace_not_sep w1 H1) as (N0 & _).
    rewrite splitNames_step by assumption. simpl. now rewrite H1, H2.
Qed.

Lemma containsEn_cons (c : N) (r : jsstring) :
  containsEn (c :: r) = false -> enAt (c :: r) = false /\ containsEn r = false.
Proof.
  destruct r as [|e [|n [|w r']]]; simpl; auto.
  intros H. apply orb_false_iff in H as [H1 H2]. split; [exact H1|].
  exact H2.
Qed.

(** A string without a separator is one fragment. *)
Lemma splitNames_atom (a : jsstring) :
  containsComma a = false -> containsEn a = false -> splitNames a = [a].
Proof.
  induction a as [|c r IH]; [reflexivity|].
  unfold containsComma. cbn [existsb]. intros Hc He.
  apply orb_false_iff in Hc as [Hc Hr].
  rewrite N.eqb_sym in Hc. apply N.eqb_neq in Hc.
  apply containsEn_cons in He as [He1 He2].
  rewrite splitNames_step, He1 by assumption.
  now rewrite (IH Hr He2).
Qed.

Lemma blank_atom (s : jsstring) :
  blank s -> containsComma s = false /\ containsEn s = false.
Proof.
  induction 1 as [|c r Hc Hr [IH1 IH2]]; [split; reflexivity|].
  destruct (isWhiteSpace_not_sep c Hc) as (N0 & _).
  split.
  - unfold containsComma in *. cbn [existsb].
    rewrite IH1. apply N.eqb_neq in N0. rewrite N.eqb_sym in N0.
    now rewrite N0.
  - destruct r as [|e [|n [|w r']]]; try reflexivity.
    change (containsEn (c :: e :: n :: w :: r'))
      with (enAt (c :: e :: n :: w :: r') || containsEn (e :: n :: w :: r')).
    rewrite IH2, orb_false_r. simpl.
    inversion Hr as [|? ? He _]; subst.
    destruct (isWhiteSpace_not_sep e He) as (_ & N1 & _).
    apply N.eqb_neq in N1. now rewrite N1, andb_false_r.
Qed.

Lemma trim_nil_blank (s : jsstring) : trim s = [] -> blank s.
Proof.
  intros H. destruct (trim_split s) as (w1 & w2 & H1 & H2 & E).
  rewrite H in E. simpl in E. rewrite E. now apply Forall_app.
Qed.

Lemma trim_idem (s : jsstring) : trim (trim s) = trim s.
Proof.
  destruct (trim_split s) as (w1 & w2 & H1 & H2 & E).
  rewrite E at 2. now rewrite trim_outer.
Qed.

(** The tests at the head of [extractNames] give what the splitting gives
    as well. *)
Lemma extractNames_fragments (text : jsstring) :
  extractNames text = filter keepName (map trim (splitNames text)).
Proof.
  unfold extractNames.
  destruct (negb (truthy text) || JsString.eqb text EN_DASH
            || JsString.eqb text HYPHEN || JsString.eqb (trim text) []) eqn:G;
    [|reflexivity].
  apply orb_true_iff in G as [G|G];
    [apply orb_true_iff in G as [G|G]; [apply orb_true_iff in G as [G|G]|]|].
  - unfold truthy in G. apply negb_true_iff, negb_false_iff, jseqb_eq in G.
    now subst.
  - apply jseqb_eq in G. now subst.
  - apply jseqb_eq in G. now subst.
  - apply jseqb_eq in G. pose proof (trim_nil_blank text G) as Hb.
    destruct (blank_atom text Hb) as [Hc He].
    rewrite (splitNames_atom text Hc He). simpl. now rewrite G.
Qed.

Lemma extractNames_comma (a b : jsstring) :
  extractNames (a ++ 44 :: b) = extractNames a ++ extractNames b.
Proof.
  rewrite !extractNames_fragments, splitNames_comma, map_app.
  apply filter_app.
Qed.

Lemma extractNames_en (a : jsstring) (w1 w2 : N) (b : jsstring) :
  isWhiteSpace w1 = true -> isWhiteSpace w2 = true ->
  endsWithEn a = false ->
  extractNames (a ++ w1 :: 101 :: 110 :: w2 :: b)
  = extractNames a ++ extractNames b.
Proof.
  intros H1 H2 He.
  rewrite !extractNames_fragments, splitNames_en, map_app by assumption.
  apply filter_app.
Qed.

Lemma extractNames_atom (a : jsstring) :
  containsComma a = false -> containsEn a = false ->
  extractNames a = if keepName (trim a) then [trim a] else [].
Proof.
  intros Hc He. now rewrite extractNames_fragments, splitNames_atom.
Qed.

Lemma extractNames_trimmed (text name : jsstring) :
  In name (extractNames text) -> trim name = name.
Proof.
  rewrite extractNames_fragments. intros H.
  apply filter_In in H as [H _]. apply in_map_iff in H as (f & <- & _).
  apply trim_idem.
Qed.

Lemma processData_single_row (source : Source) (y cell : jsstring) :
  variableWidth source -> isYear y = true ->
  processData [y; cell] source = rowResult source y cell.
Proof.
  intros Hv Hy.
  pose proof (processData_row source [] y cell [] [] Hv (Forall_nil _) Hy
                (Forall_nil _)) as E.
  simpl app in E. rewrite E.
  rewrite (processData_no_year source [] Hv (Forall_nil _)).
  apply app_nil_r.
Qed.

End SplitLemmas.

(** C6 as stated, for every category, fails on the fixed-width ones: a
    zomercyclus cell with a comma is one winner, the whole cell. *)
Lemma zomercyclus_cell_not_split :
  processData (map js ["Jaar"; "Naam"; "2020"; "Jan, Piet"]%string)
    zomercyclusSource
  = [mkResult 2020 (js "zomercyclus") competition (js "A") [js "Jan, Piet"]]
  /\ extractNames (js "Jan, Piet") = [js "Jan"; js "Piet"].
Proof. split; vm_compute; reflexivity. Qed.

(** C6, amended. In a category other than zomercyclus and tete-a-tete the
    winners of a row are the names [extractNames] finds in the cell after
    the year, each one an entry of its own.  A comma splits the cell, and so
    does white space, "en", white space where no such match starts earlier;
    a cell without a separator is one name, trimmed, and dropped when it is
    empty or a dash; every name that is kept is trimmed. *)
Theorem winner_cell_split :
  (forall (source : Source) (y cell : jsstring),
      variableWidth source -> isYear y = true ->
      processData [y; cell] source = rowResult source y cell)
  /\ (forall a b : jsstring,
        extractNames (a ++ 44%N :: b) = extractNames a ++ extractNames b)
  /\ (forall (a : jsstring) (w1 w2 : N) (b : jsstring),
        isWhiteSpace w1 = true -> isWhiteSpace w2 = true ->
        endsWithEn a = false ->
        extractNames (a ++ w1 :: 101%N :: 110%N :: w2 :: b)
        = extractNames a ++ extractNames b)
  /\ (forall a : jsstring,
        containsComma a = false -> containsEn a = false ->
        extractNames a = if keepName (trim a) then [trim a] else [])
  /\ (forall text name : jsstring,
        In name (extractNames text) ->
        trim name = name /\ name <> [] /\ name <> EN_DASH /\ name <> HYPHEN).
Proof.
  split; [exact processData_single_row|].
  split; [exact extractNames_comma|].
  split; [exact extractNames_en|].
  split; [exact extractNames_atom|].
  intros text name H. split.
  - exact (extractNames_trimmed text name H).
  - exact (extractNames_keep text name H).
Qed.

Lemma winner_cell_split_witness :
  processData [js "2019"; js "Piet, Klaas en Jan"] doublettenSource
  = rowResult doublettenSource (js "2019") (js "Piet, Klaas en Jan")
  /\ extractNames (js "Piet, Klaas" ++ 32%N :: 101%N :: 110%N :: 32%N :: js "Jan")
     = extractNames (js "Piet, Klaas") ++ extractNames (js "Jan")
  /\ extractNames (js " Jan ") = [js "Jan"].
Proof.
  split; [|split].
  - apply (proj1 winner_cell_split).
    + split; vm_compute; discriminate.
    + reflexivity.
  - apply (proj1 (proj2 (proj2 winner_cell_split))); reflexivity.
  - apply (proj1 (proj2 (proj2 (proj2 winner_cell_split))) (js " Jan "));
      reflexivity.
Defined.

(* ================================================================== *)
(** * The display name of a player                                      *)
(* ================================================================== *)

Section DisplayNameLemmas.

Variable top : jsstring.

Lemma creditWinner_atMostTop (result : Result) (pm pm' : PlayerMap)
    (w : jsstring) :
  yielding top w -> atMostTop top pm ->
  creditWinner result pm w = Some pm' -> atMostTop top pm'.
Proof.
  unfold creditWinner, yielding, atMostTop. intros Hw Hpm.
  destruct (applyNameMapping w) as [c|]; [|discriminate].
  intros H. injection H as <-. intros p.
  destruct (jseqb_spec (normalizeName top) (normalizeName c)) as [E|E].
  - rewrite E, assocGet_set_same. intros Hp. injection Hp as <-. simpl.
    rewrite <- E.
    destruct (assocGet (normalizeName top) pm) as [q|] eqn:Eq.
    + destruct (countDiacritics (displayName q) <? countDiacritics c); simpl.
      * apply (Hw c eq_refl). now symmetry.
      * now apply Hpm.
    + simpl. apply (Hw c eq_refl). now symmetry.
  - rewrite assocGet_set_other by assumption. apply Hpm.
Qed.

Lemma creditWinner_showsTop (result : Result) (pm pm' : PlayerMap)
    (w : jsstring) :
  yielding top w -> showsTop top pm ->
  creditWinner result pm w = Some pm' -> showsTop top pm'.
Proof.
  unfold creditWinner, yielding, showsTop. intros Hw (q & Hq & Hd).
  destruct (applyNameMapping w) as [c|]; [|discriminate].
  intros H. injection H as <-.
  destruct (jseqb_spec (normalizeName top) (normalizeName c)) as [E|E].
  - rewrite E, assocGet_set_same. eexists. split; [reflexivity|]. simpl.
    rewrite <- E, Hq, Hd.
    destruct (Hw c eq_refl (eq_sym E)) as [->|Hlt].
    + now destruct (countDiacritics top <? countDiacritics top).
    + apply Nat.ltb_ge in Hlt as Hge.
      assert (Hf : (countDiacritics top <? countDiacritics c) = false)
        by (apply Nat.ltb_ge; lia).
      now rewrite Hf.
  - rewrite assocGet_set_other by assumption. now exists q.
Qed.

Lemma creditWinner_top (result : Result) (pm pm' : PlayerMap) :
  applyNameMapping top = JsStr top -> atMostTop top pm ->
  creditWinner result pm top = Some pm' -> showsTop top pm'.
Proof.
  unfold creditWinner, atMostTop, showsTop. intros Hm Hpm. rewrite Hm.
  intros H. injection H as <-.
  rewrite assocGet_set_same. eexists. split; [reflexivity|]. simpl.
  destruct (assocGet (normalizeName top) pm) as [q|] eqn:Eq; [|reflexivity].
  destruct (countDiacritics (displayName q) <? countDiacritics top) eqn:L;
    [reflexivity|].
  apply Nat.ltb_ge in L.
  destruct (Hpm q eq_refl) as [E|Hlt]; [exact E | lia].
Qed.

Lemma creditWinners_top (result : Result) (names : list jsstring)
    (pm pm' : PlayerMap) :
  applyNameMapping top = JsStr top ->
  Forall (yielding top) names -> atMostTop top pm ->
  creditWinners result pm names = Some pm' ->
  atMostTop top pm'
  /\ (showsTop top pm \/ In top names -> showsTop top pm').
Proof.
  intros Hm Hn. revert pm.
  induction Hn as [|w names Hw _ IH]; intros pm Hpm; simpl.
  - intros E. injection E as <-. split; [assumption|]. intros [H|[]]; exact H.
  - destruct (creditWinner result pm w) as [pm1|] eqn:E1; [|discriminate].
    intros E.
    pose proof (creditWinner_atMostTop _ _ _ _ Hw Hpm E1) as H1.
    destruct (IH pm1 H1 E) as [H2 H3]. split; [assumption|].
    intros [H|[->|H]].
    + apply H3. left. exact (creditWinner_showsTop _ _ _ _ Hw H E1).
    + apply H3. left. exact (creditWinner_top _ _ _ Hm Hpm E1).
    + apply H3. now right.
Qed.

Lemma creditResults_top (allResults : list Result) (pm pm' : PlayerMap) :
  applyNameMapping top = JsStr top ->
  Forall (yielding top) (allWinners allResults) -> atMostTop top pm ->
  creditResults pm allResults = Some pm' ->
  atMostTop top pm'
  /\ (showsTop top pm \/ In top (allWinners allResults) -> showsTop top pm').
Proof.
  intros Hm. revert pm.
  induction allResults as [|r rs IH]; intros pm Hn Hpm; simpl.
  - intros E. injection E as <-. split; [assumption|]. intros [H|[]]; exact H.
  - unfold allWinners in Hn. simpl in Hn. apply Forall_app in Hn as [Hr Hrs].
    destruct (creditWinners r pm (winners r)) as [pm1|] eqn:E1; [|discriminate].
    intros E.
    destruct (creditWinners_top _ _ _ _ Hm Hr Hpm E1) as [H1 H1'].
    destruct (IH pm1 Hrs H1 E) as [H2 H3]. split; [assumption|].
    unfold allWinners. simpl. rewrite in_app_iff.
    intros [H|[H|H]]; apply H3; auto.
Qed.

End DisplayNameLemmas.

Section InLemmas.

Lemma assocGet_value_In {V : Type} (k : jsstring) (v : V)
    (l : list (jsstring * V)) :
  assocGet k l = Some v -> In v (map snd l).
Proof.
  intros H. apply assocGet_In in H.
  change v with (snd (k, v)). now apply in_map.
Qed.

End InLemmas.

Section TwoResults.

Lemma creditWinner_fresh (result : Result) (n : jsstring) :
  applyNameMapping n = JsStr n ->
  creditWinner result [] n
  = Some [(normalizeName n,
           mkPlayer n (incrementWin (categoryKey result) []) 1)].
Proof. intros H. unfold creditWinner. now rewrite H. Qed.

Lemma creditWinner_again (result : Result) (k : jsstring) (p : Player)
    (n : jsstring) :
  applyNameMapping n = JsStr n -> normalizeName n = k ->
  creditWinner result [(k, p)] n
  = Some [(k,
           mkPlayer
             (if countDiacritics (displayName p) <? countDiacritics n
              then n else displayName p)
             (incrementWin (categoryKey result) (wins p))
             (totalWins p + 1))].
Proof.
  intros H <-. unfold creditWinner. rewrite H. cbn [assocGet assocSet].
  rewrite jseqb_refl.
  now destruct (countDiacritics (displayName p) <? countDiacritics n).
Qed.

Lemma two_results_display_name (r1 r2 : Result) (n1 n2 : jsstring) :
  winners r1 = [n1] -> winners r2 = [n2] ->
  applyNameMapping n1 = JsStr n1 -> applyNameMapping n2 = JsStr n2 ->
  normalizeName n1 = normalizeName n2 ->
  countDiacritics n2 < countDiacritics n1 ->
  option_map (map displayName) (buildPlayerStats [r1; r2]) = Some [n1]
  /\ option_map (map displayName) (buildPlayerStats [r2; r1]) = Some [n1].
Proof.
  intros W1 W2 M1 M2 E L. unfold buildPlayerStats.
  cbn [creditResults]. rewrite W1, W2. cbn [creditWinners]. split.
  - rewrite (creditWinner_fresh r1 n1 M1).
    rewrite (creditWinner_again r2 _ _ n2 M2 (eq_sym E)).
    cbn [displayName map snd sortPlayers fold_right insertPlayer option_map].
    assert (F : (countDiacritics n1 <? countDiacritics n2) = false)
      by (apply Nat.ltb_ge; lia).
    now rewrite F.
  - rewrite (creditWinner_fresh r2 n2 M2).
    rewrite (creditWinner_again r1 _ _ n1 M1 E).
    cbn [displayName map snd sortPlayers fold_right insertPlayer option_map].
    assert (F : (countDiacritics n2 <? countDiacritics n1) = true)
      by (apply Nat.ltb_lt; lia).
    now rewrite F.
Qed.

End TwoResults.

(** C7 as stated fails for names the Name Mapping Table rewrites: both
    spellings of "Roy Derksen" show as "Roy Derks", in either order. *)
Lemma mapped_name_display :
  normalizeName (js "Róy Derksen") = normalizeName (js "Roy Derksen")
  /\ countDiacritics (js "Roy Derksen") < countDiacritics (js "Róy Derksen")
  /\ option_map (map displayName)
       (buildPlayerStats
          [mkResult 2019 (js "doubletten") championship (js "A")
             [js "Roy Derksen"];
           mkResult 2020 (js "doubletten") championship (js "A")
             [js "Róy Derksen"]])
     = Some [js "Roy Derks"]
  /\ option_map (map displayName)
       (buildPlayerStats
          [mkResult 2020 (js "doubletten") championship (js "A")
             [js "Róy Derksen"];
           mkResult 2019 (js "doubletten") championship (js "A")
             [js "Roy Derksen"]])
     = Some [js "Roy Derks"].
Proof. repeat split; vm_compute; try reflexivity; lia. Qed.

(** C7, amended. For two results whose winner names the Name Mapping Table
    leaves as they are and which normalize to the same key, one with
    strictly more diacritics than the other, the one player of the two
    results shows the spelling with more diacritics, whichever result comes
    first.  More generally, in any sequence of results, when a winner
    spelling [top] that the table leaves as it is has strictly more
    diacritics than every other canonical name of its key, the player of
    that key shows [top]. *)
Theorem display_name_most_diacritics :
  (forall (r1 r2 : Result) (n1 n2 : jsstring),
      winners r1 = [n1] -> winners r2 = [n2] ->
      applyNameMapping n1 = JsStr n1 -> applyNameMapping n2 = JsStr n2 ->
      normalizeName n1 = normalizeName n2 ->
      countDiacritics n2 < countDiacritics n1 ->
      option_map (map displayName) (buildPlayerStats [r1; r2]) = Some [n1]
      /\ option_map (map displayName) (buildPlayerStats [r2; r1]) = Some [n1])
  /\ (forall (allResults : list Result) (pm : PlayerMap) (top : jsstring),
        creditResults [] allResults = Some pm ->
        applyNameMapping top = JsStr top ->
        In top (allWinners allResults) ->
        Forall (yielding top) (allWinners allResults) ->
        exists p,
          assocGet (normalizeName top) pm = Some p
          /\ displayName p = top
          /\ forall players,
               buildPlayerStats allResults = Some players -> In p players).
Proof.
  split; [exact two_results_display_name|].
  intros allResults pm top Hpm Hm Hin Hy.
  assert (H0 : atMostTop top []) by (intros p; discriminate).
  destruct (creditResults_top top allResults [] pm Hm Hy H0 Hpm) as [_ H].
  destruct (H (or_intror Hin)) as (p & Hp & Hd).
  exists p. repeat split; try assumption.
  intros players. unfold buildPlayerStats. rewrite Hpm.
  intros E. injection E as <-.
  apply sortPlayers_In. exact (assocGet_value_In _ _ _ Hp).
Qed.

Lemma display_name_most_diacritics_witness :
  option_map (map displayName)
    (buildPlayerStats
       [mkResult 2019 (js "doubletten") championship (js "A") [js "Cédric"];
        mkResult 2020 (js "mix") championship (js "A") [js "Cedric"]])
  = Some [js "Cédric"]
  /\ option_map (map displayName)
       (buildPlayerStats
          [mkResult 2020 (js "mix") championship (js "A") [js "Cedric"];
           mkResult 2019 (js "doubletten") championship (js "A")
             [js "Cédric"]])
     = Some [js "Cédric"].
Proof.
  apply (proj1 display_name_most_diacritics
           (mkResult 2019 (js "doubletten") championship (js "A")
              [js "Cédric"])
           (mkResult 2020 (js "mix") championship (js "A") [js "Cedric"])
           (js "Cédric") (js "Cedric"));
    try reflexivity.
  vm_compute. lia.
Defined.

(* ================================================================== *)
(** * The fetcher                                                       *)
(* ================================================================== *)

Section FetcherLemmas.

Local Open Scope Z_scope.

Lemma shouldRetryStatus_iff (statusCode : Z) :
  shouldRetryStatus statusCode = true
  <-> statusCode = 429 \/ 500 <= statusCode < 600.
Proof.
  unfold shouldRetryStatus.
  rewrite orb_true_iff, andb_true_iff, Z.eqb_eq, Z.leb_le, Z.ltb_lt. tauto.
Qed.

(** A response that settles the promise, with or without retries left. *)
Lemma attempt_settled (r : Response) (later : list Response)
    (remainingRetries currentDelay : Z) :
  transient r = false \/ remainingRetries <= 0 ->
  attempt (r :: later) remainingRetries currentDelay = ([], settle r).
Proof.
  intros H. destruct r as [|code data]; simpl.
  - destruct H as [H|H]; [discriminate|].
    assert (E : (0 <? remainingRetries) = false) by (apply Z.ltb_ge; lia).
    now rewrite E.
  - destruct (code =? 200) eqn:E200; [reflexivity|].
    destruct H as [H|H].
    + simpl in H. rewrite E200 in H. simpl in H. now rewrite H.
    + assert (E : (0 <? remainingRetries) = false) by (apply Z.ltb_ge; lia).
      now rewrite E, andb_false_r.
Qed.

(** A transient response with retries left: one more request, after the
    current delay, with the delay doubled. *)
Lemma attempt_retry (r : Response) (later : list Response)
    (remainingRetries currentDelay : Z) :
  transient r = true -> 0 < remainingRetries ->
  attempt (r :: later) remainingRetries currentDelay
  = (currentDelay
       :: fst (attempt later (remainingRetries - 1) (currentDelay * 2)),
     snd (attempt later (remainingRetries - 1) (currentDelay * 2))).
Proof.
  intros Ht Hr. apply Z.ltb_lt in Hr.
  destruct r as [|code data]; simpl.
  - rewrite Hr.
    now destruct (attempt later (remainingRetries - 1) (currentDelay * 2)).
  - simpl in Ht. apply andb_true_iff in Ht as [H200 Hs].
    apply negb_true_iff in H200. rewrite H200, Hs, Hr. simpl.
    now destruct (attempt later (remainingRetries - 1) (currentDelay * 2)).
Qed.

Lemma attempt_backoff (failures : list Response) (final : Response)
    (later : list Response) (retries delay : Z) :
  Forall (fun r => transient r = true) failures ->
  Z.of_nat (List.length failures) <= retries ->
  transient final = false \/ Z.of_nat (List.length failures) = retries ->
  attempt (failures ++ final :: later) retries delay
  = (backoff (List.length failures) delay, settle final).
Proof.
  intros Hf. revert retries delay.
  induction Hf as [|r failures Hr _ IH]; intros retries delay Hle Hfin.
  - simpl in *. apply attempt_settled.
    destruct Hfin as [H|H]; [now left | right; lia].
  - cbn [List.length] in *. rewrite Nat2Z.inj_succ in Hle, Hfin.
    rewrite <- app_comm_cons.
    rewrite attempt_retry by (try assumption; lia).
    rewrite (IH (retries - 1) (delay * 2));
      [reflexivity | lia | destruct Hfin as [H|H]; [now left | right; lia]].
Qed.

End FetcherLemmas.

(** C8 as stated stops the retried status codes before 599: the script
    retries on 599 as on any code from 500 to 599. *)
Lemma status_599_is_retried :
  claimedRetryStatus 599 = false
  /\ shouldRetryStatus 599 = true
  /\ fetchUrlDefault [Http 599 (js "busy"); Http 200 (js "<td>2020</td>")]
     = ([500%Z], Resolved (js "<td>2020</td>")).
Proof. repeat split. Qed.

(** C8, amended. The fetcher retries exactly on a connection error or a
    status code that is 429 or from 500 to 599 (600 excluded), while it has
    retries left: after [k] such responses in a row, [k] at most the number
    of retries, it has waited the first [k] delays of the backoff, and the
    next response settles it when that response is not transient or no retry
    is left: status 200 resolves with the body, anything else rejects.  With
    the defaults there are at most 3 retries, after 500, 1000 and 2000 ms. *)
Theorem fetch_retry_policy :
  (forall statusCode : Z,
      shouldRetryStatus statusCode = true
      <-> (statusCode = 429 \/ 500 <= statusCode < 600)%Z)
  /\ (forall (failures : list Response) (final : Response)
             (later : list Response) (retries delay : Z),
        Forall (fun r => transient r = true) failures ->
        (Z.of_nat (List.length failures) <= retries)%Z ->
        transient final = false
        \/ Z.of_nat (List.length failures) = retries ->
        fetchUrl (failures ++ final :: later) retries delay
        = (backoff (List.length failures) delay, settle final))
  /\ (forall (data : jsstring) (later : list Response) (retries delay : Z),
        fetchUrl (Http 200 data :: later) retries delay = ([], Resolved data))
  /\ (forall (f1 f2 f3 final : Response) (later : list Response),
        transient f1 = true -> transient f2 = true -> transient f3 = true ->
        fetchUrlDefault (f1 :: f2 :: f3 :: final :: later)
        = ([500; 1000; 2000]%Z, settle final)).
Proof.
  split; [exact shouldRetryStatus_iff|].
  split; [exact attempt_backoff|].
  split; [reflexivity|].
  intros f1 f2 f3 final later H1 H2 H3.
  apply (attempt_backoff [f1; f2; f3] final later 3 500).
  - repeat constructor; assumption.
  - simpl. lia.
  - right. reflexivity.
Qed.

Lemma fetch_retry_policy_witness :
  fetchUrl ([NetworkError; Http 503 (js "down")]
              ++ Http 404 (js "gone") :: [Http 200 (js "late")]) 3 500
  = (backoff 2 500, settle (Http 404 (js "gone")))
  /\ fetchUrlDefault
       (NetworkError :: Http 429 (js "slow") :: Http 599 (js "busy")
          :: Http 500 (js "down") :: [Http 200 (js "late")])
     = ([500; 1000; 2000]%Z, settle (Http 500 (js "down"))).
Proof.
  split.
  - apply (proj1 (proj2 fetch_retry_policy)).
    + repeat constructor.
    + simpl. lia.
    + left. reflexivity.
  - apply (proj2 (proj2 (proj2 fetch_retry_policy))); reflexivity.
Defined.

(* ================================================================== *)
(** * The loop over the sources                                         *)
(* ================================================================== *)

Section MainLemmas.





End MainLemmas.

(* ================================================================== *)
(** * When the aggregator returns                                       *)
(* ================================================================== *)

Section TotalityLemmas.

(** A category key starts with the name of a type, so [wins[categoryKey]]
    never reads a property inherited from [Object.prototype]. *)
Lemma categoryKey_own (result : Result) :
  existsb (JsString.eqb (categoryKey result)) OBJECT_PROTOTYPE_KEYS = false.
Proof. unfold categoryKey. now destruct (rtype result). Qed.



(** A winner cell "Constructor" finds the inherited [constructor] in
    [NAME_MAPPINGS], and [normalizeName] throws on it. *)
Lemma buildPlayerStats_inherited_name :
  applyNameMapping (js "Constructor") = JsObject
  /\ buildPlayerStats
       [mkResult 2020 (js "zomercyclus") competition (js "A")
          [js "Constructor"]]
     = None.
Proof. split; reflexivity. Qed.

End TotalityLemmas.

Section AbortLemmas.




End AbortLemmas.

(* ================================================================== *)
(** * Failure of one source                                             *)
(* ================================================================== *)





(* ================================================================== *)
(** * What the aggregator counts                                        *)
(* ================================================================== *)

Section TraceLemmas.

(** Induction over the winners in the order the aggregator credits them. *)
Variable P : list (Result * jsstring) -> PlayerMap -> Prop.

Hypothesis P_step :
  forall cs pm r w pm',
    P cs pm -> creditWinner r pm w = Some pm' -> P (cs ++ [(r, w)]) pm'.

Lemma creditWinners_trace (r : Result) (names : list jsstring)
    (cs : list (Result * jsstring)) (pm pm' : PlayerMap) :
  P cs pm -> creditWinners r pm names = Some pm' ->
  P (cs ++ map (pair r) names) pm'.
Proof.
  revert cs pm. induction names as [|w names IH]; intros cs pm Hp; simpl.
  - intros E. injection E as <-. now rewrite app_nil_r.
  - destruct (creditWinner r pm w) as [pm1|] eqn:E1; [|discriminate].
    intros E. change ((r, w) :: map (pair r) names)
      with ([(r, w)] ++ map (pair r) names).
    rewrite app_assoc. apply (IH _ pm1); [|exact E].
    exact (P_step cs pm r w pm1 Hp E1).
Qed.

Lemma creditResults_trace (allResults : list Result)
    (cs : list (Result * jsstring)) (pm pm' : PlayerMap) :
  P cs pm -> creditResults pm allResults = Some pm' ->
  P (cs ++ credits allResults) pm'.
Proof.
  revert cs pm. induction allResults as [|r rs IH]; intros cs pm Hp; simpl.
  - intros E. injection E as <-. now rewrite app_nil_r.
  - destruct (creditWinners r pm (winners r)) as [pm1|] eqn:E1; [|discriminate].
    intros E. rewrite app_assoc. apply (IH _ pm1); [|exact E].
    exact (creditWinners_trace r (winners r) cs pm pm1 Hp E1).
Qed.

End TraceLemmas.

Section CountLemmas.

Lemma credits_winners (allResults : list Result) :
  map snd (credits allResults) = allWinners allResults.
Proof.
  unfold credits, allWinners.
  induction allResults as [|r rs IH]; simpl; [reflexivity|].
  rewrite map_app, IH, map_map. simpl. now rewrite map_id.
Qed.

Lemma creditsOf_snoc (k : jsstring) (cs : list (Result * jsstring))
    (r : Result) (w : jsstring) :
  creditsOf k (cs ++ [(r, w)])
  = creditsOf k cs + (if hasKey k w then 1 else 0).
Proof.
  unfold creditsOf. rewrite filter_app, length_app. simpl.
  now destruct (hasKey k w).
Qed.

Lemma categoryCreditsOf_snoc (k ck : jsstring)
    (cs : list (Result * jsstring)) (r : Result) (w : jsstring) :
  categoryCreditsOf k ck (cs ++ [(r, w)])
  = categoryCreditsOf k ck cs
    + (if hasKey k w && JsString.eqb (categoryKey r) ck then 1 else 0).
Proof.
  unfold categoryCreditsOf. rewrite filter_app, length_app. simpl.
  now destruct (hasKey k w && JsString.eqb (categoryKey r) ck).
Qed.

Lemma hasKey_playerKey (k k0 w : jsstring) :
  playerKey w = Some k0 -> hasKey k w = JsString.eqb k0 k.
Proof. intros H. unfold hasKey. now rewrite H. Qed.

(** The player that a credit writes, with its counts. *)
Lemma creditWinner_player (result : Result) (pm pm' : PlayerMap)
    (w : jsstring) :
  creditWinner result pm w = Some pm' ->
  exists k p,
    playerKey w = Some k
    /\ pm' = assocSet k p pm
    /\ keyOf p = match assocGet k pm with
                 | Some q => if (countDiacritics (displayName q)
                                 <? countDiacritics (displayName p))
                             then k else keyOf q
                 | None => k
                 end
    /\ wins p = incrementWin (categoryKey result)
                  (match assocGet k pm with Some q => wins q | None => [] end)
    /\ totalWins p = totalOf k pm + 1.
Proof.
  unfold creditWinner, playerKey, totalOf.
  destruct (applyNameMapping w) as [c|]; [|discriminate].
  intros H. injection H as <-.
  eexists. eexists. split; [reflexivity|]. split; [reflexivity|].
  destruct (assocGet (normalizeName c) pm) as [q|]; simpl.
  - destruct (countDiacritics (displayName q) <? countDiacritics c) eqn:L;
      simpl; rewrite ?L; repeat split.
    rewrite Nat.ltb_irrefl. reflexivity.
  - repeat split.
Qed.

Lemma winsOf_incrementWin (ck key : jsstring) (dn : jsstring)
    (ws : list (jsstring * nat)) (t : nat) :
  winsOf ck (mkPlayer dn (incrementWin key ws) t)
  = winsOf ck (mkPlayer dn ws t) + (if JsString.eqb key ck then 1 else 0).
Proof.
  unfold winsOf. simpl. rewrite incrementWin_eq.
  destruct (jseqb_spec key ck) as [->|Hne].
  - rewrite assocGet_set_same. destruct (assocGet ck ws); lia.
  - rewrite assocGet_set_other by congruence. lia.
Qed.

End CountLemmas.

Section TotalsLemmas.

Lemma totals_counted (allResults : list Result) (pm : PlayerMap) :
  creditResults [] allResults = Some pm ->
  forall k, totalOf k pm = creditsOf k (credits allResults).
Proof.
  intros H.
  apply (creditResults_trace
           (fun cs pm => forall k, totalOf k pm = creditsOf k cs))
    with (cs := []) (pm := []) (pm' := pm) (allResults := allResults);
    try assumption; [|reflexivity].
  clear. intros cs pm r w pm' IH E k.
  destruct (creditWinner_player _ _ _ _ E) as (k0 & p & Hk & -> & _ & _ & Ht).
  rewrite creditsOf_snoc, (hasKey_playerKey k k0 w Hk), <- IH.
  unfold totalOf at 1.
  destruct (jseqb_spec k0 k) as [->|Hne].
  - now rewrite assocGet_set_same.
  - rewrite assocGet_set_other by congruence. unfold totalOf. lia.
Qed.

Lemma categories_counted (allResults : list Result) (pm : PlayerMap) :
  creditResults [] allResults = Some pm ->
  forall k ck,
    categoryOf k ck pm = categoryCreditsOf k ck (credits allResults).
Proof.
  intros H.
  apply (creditResults_trace
           (fun cs pm => forall k ck,
                categoryOf k ck pm = categoryCreditsOf k ck cs))
    with (cs := []) (pm := []) (pm' := pm) (allResults := allResults);
    try assumption; [|reflexivity].
  clear. intros cs pm r w pm' IH E k ck.
  destruct (creditWinner_player _ _ _ _ E) as (k0 & p & Hk & -> & _ & Hw & _).
  rewrite categoryCreditsOf_snoc, (hasKey_playerKey k k0 w Hk), <- IH.
  unfold categoryOf at 1.
  destruct (jseqb_spec k0 k) as [->|Hne]; simpl.
  - rewrite assocGet_set_same.
    destruct p as [dn ws t]. simpl in Hw. subst ws.
    rewrite winsOf_incrementWin. unfold categoryOf, winsOf. simpl.
    destruct (assocGet k pm) as [q|]; reflexivity.
  - rewrite assocGet_set_other by congruence. unfold categoryOf. lia.
Qed.

End TotalsLemmas.

Section KeyLemmas.

Lemma assocSet_In_key {V : Type} (k k' : jsstring) (v x : V)
    (l : list (jsstring * V)) :
  In (k', x) (assocSet k v l) -> (k' = k /\ x = v) \/ In (k', x) l.
Proof.
  induction l as [|[k0 v0] l IH]; simpl.
  - intros [E|[]]. left. split; congruence.
  - destruct (jseqb_spec k k0) as [->|Hne]; simpl.
    + intros [E|H]; [left; split; congruence | right; now right].
    + intros [E|H]; [right; now left|].
      destruct (IH H); [now left | right; now right].
Qed.

Lemma In_assocGet {V : Type} (k : jsstring) (v : V) (l : list (jsstring * V)) :
  NoDup (map fst l) -> In (k, v) l -> assocGet k l = Some v.
Proof.
  induction l as [|[k0 v0] l IH]; simpl; [intros _ []|].
  intros Hd [E|H].
  - injection E as -> ->. now rewrite jseqb_refl.
  - inversion Hd as [|? ? Hn Hd']; subst.
    destruct (jseqb_spec k k0) as [->|Hne]; [|now apply IH].
    exfalso. apply Hn. change k0 with (fst (k0, v)). now apply in_map.
Qed.

(** Every entry of the map stands under the key of its display name, and
    no key stands twice. *)
Lemma reachable_keys (pm : PlayerMap) :
  reachable pm ->
  NoDup (map fst pm) /\ forall k p, In (k, p) pm -> keyOf p = k.
Proof.
  induction 1 as [|r pm w pm' _ [Hd Hk] E]; [split; [constructor | intros ? ? []]|].
  destruct (creditWinner_player _ _ _ _ E) as (k0 & p & _ & -> & Hp & _).
  split; [now apply assocSet_NoDup|].
  intros k q Hq. apply assocSet_In_key in Hq as [[-> ->]|Hq]; [|now apply Hk].
  rewrite Hp. destruct (assocGet k0 pm) as [q|] eqn:Eq; [|reflexivity].
  destruct (countDiacritics (displayName q) <? countDiacritics (displayName p));
    [reflexivity|].
  apply Hk. now apply assocGet_In.
Qed.

Lemma creditResults_reachable_nil (allResults : list Result) (pm : PlayerMap) :
  creditResults [] allResults = Some pm -> reachable pm.
Proof. apply creditResults_reachable. constructor. Qed.

(** A player of the output is the entry of its own key. *)
Lemma player_entry (allResults : list Result) (pm : PlayerMap) (p : Player) :
  creditResults [] allResults = Some pm ->
  In p (map snd pm) -> assocGet (keyOf p) pm = Some p.
Proof.
  intros H Hin. apply creditResults_reachable_nil in H.
  destruct (reachable_keys pm H) as [Hd Hk].
  apply in_map_iff in Hin as ([k q] & <- & Hq). simpl.
  rewrite (Hk k q Hq). now apply In_assocGet.
Qed.

End KeyLemmas.

Section SortLemmas.

Lemma insertPlayer_perm (p : Player) (l : list Player) :
  Permutation (insertPlayer p l) (p :: l).
Proof.
  induction l as [|q l IH]; simpl; [reflexivity|].
  destruct (totalWins p <? totalWins q); [|reflexivity].
  rewrite IH. apply perm_swap.
Qed.

Lemma sortPlayers_perm (l : list Player) : Permutation (sortPlayers l) l.
Proof.
  unfold sortPlayers. induction l as [|p l IH]; simpl; [reflexivity|].
  rewrite insertPlayer_perm. now constructor.
Qed.

Lemma insertPlayer_sorted (p : Player) (l : list Player) :
  StronglySorted moreWins l -> StronglySorted moreWins (insertPlayer p l).
Proof.
  induction 1 as [|q l Hs IH Hq]; simpl.
  - constructor; constructor.
  - destruct (totalWins p <? totalWins q) eqn:L.
    + apply Nat.ltb_lt in L. constructor; [exact IH|].
      rewrite Forall_forall in *. intros x Hx.
      apply insertPlayer_In in Hx as [->|Hx]; [unfold moreWins; lia|].
      now apply Hq.
    + apply Nat.ltb_ge in L. constructor; [now constructor|].
      constructor; [exact L|].
      rewrite Forall_forall in *. intros x Hx. specialize (Hq x Hx).
      unfold moreWins in *. lia.
Qed.

Lemma sortPlayers_sorted (l : list Player) :
  StronglySorted moreWins (sortPlayers l).
Proof.
  unfold sortPlayers. induction l as [|p l IH]; simpl; [constructor|].
  now apply insertPlayer_sorted.
Qed.

Lemma insertPlayer_stable (n : nat) (p : Player) (l : list Player) :
  filter (withTotal n) (insertPlayer p l) = filter (withTotal n) (p :: l).
Proof.
  induction l as [|q l IH]; [reflexivity|].
  simpl insertPlayer. destruct (totalWins p <? totalWins q) eqn:L;
    [|reflexivity].
  apply Nat.ltb_lt in L. simpl. rewrite IH. simpl.
  unfold withTotal.
  destruct (Nat.eqb_spec (totalWins p) n), (Nat.eqb_spec (totalWins q) n);
    try reflexivity. lia.
Qed.

Lemma sortPlayers_stable (n : nat) (l : list Player) :
  filter (withTotal n) (sortPlayers l) = filter (withTotal n) l.
Proof.
  unfold sortPlayers. induction l as [|p l IH]; [reflexivity|].
  simpl fold_right. rewrite insertPlayer_stable. simpl. now rewrite IH.
Qed.

End SortLemmas.

Section SumLemmas.

Lemma totals_sum_set (k : jsstring) (v : Player) (l : PlayerMap) :
  list_sum (map totalWins (map snd (assocSet k v l))) + totalOf k l
  = list_sum (map totalWins (map snd l)) + totalWins v.
Proof.
  unfold totalOf. induction l as [|[k0 v0] l IH]; simpl; [lia|].
  destruct (JsString.eqb k k0); simpl; lia.
Qed.

Lemma totals_sum (allResults : list Result) (pm : PlayerMap) :
  creditResults [] allResults = Some pm ->
  list_sum (map totalWins (map snd pm)) = List.length (credits allResults).
Proof.
  intros H.
  apply (creditResults_trace
           (fun cs pm => list_sum (map totalWins (map snd pm))
                         = List.length cs))
    with (cs := []) (pm := []) (pm' := pm) (allResults := allResults);
    try assumption; [|reflexivity].
  clear. intros cs pm r w pm' IH E.
  destruct (creditWinner_player _ _ _ _ E) as (k0 & p & _ & -> & _ & _ & Ht).
  pose proof (totals_sum_set k0 p pm). rewrite length_app. simpl. lia.
Qed.

Lemma list_sum_perm (a b : list nat) :
  Permutation a b -> list_sum a = list_sum b.
Proof. induction 1; simpl; lia. Qed.

End SumLemmas.

Section DisplayOrigin.

Lemma totals_step (cs : list (Result * jsstring)) (pm pm' : PlayerMap)
    (r : Result) (w : jsstring) :
  (forall k, totalOf k pm = creditsOf k cs) ->
  creditWinner r pm w = Some pm' ->
  forall k, totalOf k pm' = creditsOf k (cs ++ [(r, w)]).
Proof.
  intros IH E k.
  destruct (creditWinner_player _ _ _ _ E) as (k0 & p & Hk & -> & _ & _ & Ht).
  rewrite creditsOf_snoc, (hasKey_playerKey k k0 w Hk), <- IH.
  unfold totalOf at 1.
  destruct (jseqb_spec k0 k) as [->|Hne].
  - now rewrite assocGet_set_same.
  - rewrite assocGet_set_other by congruence. unfold totalOf. lia.
Qed.

(** The display name of an entry is a canonical name that was credited to
    it, and none credited to it has more diacritics. *)
Lemma display_names_seen (allResults : list Result) (pm : PlayerMap) :
  creditResults [] allResults = Some pm ->
  forall k p, assocGet k pm = Some p ->
    (exists r w, In (r, w) (credits allResults)
                 /\ applyNameMapping w = JsStr (displayName p))
    /\ (forall r w c, In (r, w) (credits allResults) ->
          applyNameMapping w = JsStr c -> normalizeName c = k ->
          countDiacritics c <= countDiacritics (displayName p)).
Proof.
  intros H.
  assert (G : (forall k, totalOf k pm = creditsOf k (credits allResults))
              /\ forall k p, assocGet k pm = Some p ->
                (exists r w, In (r, w) (credits allResults)
                             /\ applyNameMapping w = JsStr (displayName p))
                /\ (forall r w c, In (r, w) (credits allResults) ->
                      applyNameMapping w = JsStr c -> normalizeName c = k ->
                      countDiacritics c <= countDiacritics (displayName p)));
    [|exact (proj2 G)].
  apply (creditResults_trace
           (fun cs pm =>
              (forall k, totalOf k pm = creditsOf k cs)
              /\ forall k p, assocGet k pm = Some p ->
                (exists r w, In (r, w) cs
                             /\ applyNameMapping w = JsStr (displayName p))
                /\ (forall r w c, In (r, w) cs ->
                      applyNameMapping w = JsStr c -> normalizeName c = k ->
                      countDiacritics c <= countDiacritics (displayName p))))
    with (cs := []) (pm := []) (pm' := pm) (allResults := allResults);
    try assumption; [|split; [reflexivity | intros k p; discriminate]].
  clear. intros cs pm r w pm' [IT IH] E.
  split; [exact (totals_step cs pm pm' r w IT E)|].
  intros k p Hp.
  unfold creditWinner in E.
  destruct (applyNameMapping w) as [c|] eqn:Ec; [|discriminate].
  injection E as <-.
  destruct (jseqb_spec k (normalizeName c)) as [->|Hne].
  - rewrite assocGet_set_same in Hp. injection Hp as <-. simpl.
    destruct (assocGet (normalizeName c) pm) as [q|] eqn:Eq.
    + destruct (IH _ q Eq) as [(r0 & w0 & Hin & Hw0) Hmax].
      destruct (countDiacritics (displayName q) <? countDiacritics c) eqn:L;
        simpl.
      * apply Nat.ltb_lt in L. split.
        { exists r, w. split; [apply in_or_app; right; now left | exact Ec]. }
        intros r1 w1 c1 Hin1 Hc1 Hk1.
        apply in_app_or in Hin1 as [Hin1|[Hin1|[]]].
        { specialize (Hmax r1 w1 c1 Hin1 Hc1 Hk1). lia. }
        injection Hin1 as <- <-. rewrite Ec in Hc1. injection Hc1 as <-. lia.
      * apply Nat.ltb_ge in L. split.
        { exists r0, w0. split; [apply in_or_app; now left | exact Hw0]. }
        intros r1 w1 c1 Hin1 Hc1 Hk1.
        apply in_app_or in Hin1 as [Hin1|[Hin1|[]]].
        { exact (Hmax r1 w1 c1 Hin1 Hc1 Hk1). }
        injection Hin1 as <- <-. rewrite Ec in Hc1. injection Hc1 as <-.
        exact L.
    + simpl. split.
      { exists r, w. split; [apply in_or_app; right; now left | exact Ec]. }
      intros r1 w1 c1 Hin1 Hc1 Hk1.
      apply in_app_or in Hin1 as [Hin1|[Hin1|[]]].
      * exfalso.
        assert (Ht : totalOf (normalizeName c) pm = 0)
          by (unfold totalOf; now rewrite Eq).
        rewrite IT in Ht. unfold creditsOf in Ht.
        assert (Hf : In (r1, w1)
                       (filter (fun rw => hasKey (normalizeName c) (snd rw))
                          cs)).
        { apply filter_In. split; [exact Hin1|]. simpl.
          unfold hasKey, playerKey. rewrite Hc1, Hk1. apply jseqb_refl. }
        destruct (filter (fun rw => hasKey (normalizeName c) (snd rw)) cs);
          [destruct Hf | discriminate].
      * injection Hin1 as <- <-. rewrite Ec in Hc1. injection Hc1 as <-. lia.
  - rewrite assocGet_set_other in Hp by assumption.
    destruct (IH _ p Hp) as [(r0 & w0 & Hin & Hw0) Hmax]. split.
    + exists r0, w0. split; [apply in_or_app; now left | exact Hw0].
    + intros r1 w1 c1 Hin1 Hc1 Hk1.
      apply in_app_or in Hin1 as [Hin1|[Hin1|[]]].
      * exact (Hmax r1 w1 c1 Hin1 Hc1 Hk1).
      * injection Hin1 as <- <-. rewrite Ec in Hc1. injection Hc1 as <-.
        congruence.
Qed.

End DisplayOrigin.

Section OutputLemmas.

Lemma buildPlayerStats_map (allResults : list Result) (players : list Player) :
  buildPlayerStats allResults = Some players ->
  exists pm, creditResults [] allResults = Some pm
             /\ players = sortPlayers (map snd pm).
Proof.
  unfold buildPlayerStats.
  destruct (creditResults [] allResults) as [pm|]; [|discriminate].
  intros E. injection E as <-. now exists pm.
Qed.

Lemma In_credits_winners (allResults : list Result) (r : Result)
    (w : jsstring) :
  In (r, w) (credits allResults) -> In w (allWinners allResults).
Proof.
  intros H. rewrite <- credits_winners.
  change w with (snd (r, w)). now apply in_map.
Qed.

Lemma In_winners_credits (allResults : list Result) (w : jsstring) :
  In w (allWinners allResults) -> exists r, In (r, w) (credits allResults).
Proof.
  rewrite <- credits_winners. intros H.
  apply in_map_iff in H as ([r w'] & E & H). simpl in E. subst w'.
  now exists r.
Qed.

Lemma keys_of_values (pm : PlayerMap) :
  (forall k p, In (k, p) pm -> keyOf p = k) ->
  map keyOf (map snd pm) = map fst pm.
Proof.
  induction pm as [|[k q] pm IH]; intros Hk; [reflexivity|].
  simpl. rewrite (Hk k q (or_introl eq_refl)). f_equal.
  apply IH. intros k' p' Hin. apply Hk. now right.
Qed.

End OutputLemmas.

(* ================================================================== *)
(** * The players of the output                                         *)
(* ================================================================== *)

(** X1. The total of a player of the output is the number of winner
    entries whose key is the key of the player, which is at least one, and
    the count of a category is the number of those entries in a result of
    that category; a category without such an entry counts as 0. *)
Theorem player_wins_counted (allResults : list Result)
    (players : list Player) (p : Player) :
  buildPlayerStats allResults = Some players -> In p players ->
  totalWins p = creditsOf (keyOf p) (credits allResults)
  /\ 1 <= totalWins p
  /\ forall ck, winsOf ck p
                = categoryCreditsOf (keyOf p) ck (credits allResults).
Proof.
  intros H Hp. destruct (buildPlayerStats_map _ _ H) as (pm & Hpm & ->).
  apply (proj1 (sortPlayers_In _ _)) in Hp.
  pose proof (player_entry allResults pm p Hpm Hp) as He.
  pose proof (totals_counted allResults pm Hpm (keyOf p)) as Ht.
  unfold totalOf in Ht. rewrite He in Ht.
  split; [exact Ht|]. split.
  - destruct (display_names_seen allResults pm Hpm _ p He)
      as [(r & w & Hin & Hw) _].
    rewrite Ht. unfold creditsOf.
    assert (Hf : In (r, w)
                   (filter (fun rw => hasKey (keyOf p) (snd rw))
                      (credits allResults))).
    { apply filter_In. split; [exact Hin|]. simpl.
      unfold hasKey, playerKey. rewrite Hw. apply jseqb_refl. }
    destruct (filter (fun rw => hasKey (keyOf p) (snd rw))
                (credits allResults)); [destruct Hf | simpl; lia].
  - intros ck.
    pose proof (categories_counted allResults pm Hpm (keyOf p) ck) as Hc.
    unfold categoryOf in Hc. now rewrite He in Hc.
Qed.

Lemma player_wins_counted_witness :
  totalWins (mkPlayer (js "Cédric")
               [(js "championship_mix", 1); (js "competition_zomercyclus", 1)]
               2)
  = creditsOf (js "cedric")
      (credits
         [mkResult 2019 (js "mix") championship (js "A")
            [js "Cedric"; js "Klaas"];
          mkResult 2020 (js "zomercyclus") competition (js "A")
            [js "Cédric"]])
  /\ 1 <= 2
  /\ forall ck,
       winsOf ck (mkPlayer (js "Cédric")
                    [(js "championship_mix", 1);
                     (js "competition_zomercyclus", 1)] 2)
       = categoryCreditsOf (js "cedric") ck
           (credits
              [mkResult 2019 (js "mix") championship (js "A")
                 [js "Cedric"; js "Klaas"];
               mkResult 2020 (js "zomercyclus") competition (js "A")
                 [js "Cédric"]]).
Proof.
  apply (player_wins_counted
           [mkResult 2019 (js "mix") championship (js "A")
              [js "Cedric"; js "Klaas"];
            mkResult 2020 (js "zomercyclus") competition (js "A")
              [js "Cédric"]]
           [mkPlayer (js "Cédric")
              [(js "championship_mix", 1); (js "competition_zomercyclus", 1)]
              2;
            mkPlayer (js "Klaas") [(js "championship_mix", 1)] 1]).
  - vm_compute. reflexivity.
  - left. reflexivity.
Defined.

(** X2. The totals of the players of the output add up to the number of
    winner entries of the results. *)
Theorem total_wins_conserved (allResults : list Result)
    (players : list Player) :
  buildPlayerStats allResults = Some players ->
  list_sum (map totalWins players) = List.length (allWinners allResults).
Proof.
  intros H. destruct (buildPlayerStats_map _ _ H) as (pm & Hpm & ->).
  rewrite (list_sum_perm _ _
             (Permutation_map totalWins (sortPlayers_perm (map snd pm)))).
  rewrite (totals_sum allResults pm Hpm), <- credits_winners.
  now rewrite length_map.
Qed.

Lemma total_wins_conserved_witness :
  list_sum (map totalWins
              [mkPlayer (js "Cédric")
                 [(js "championship_mix", 1);
                  (js "competition_zomercyclus", 1)] 2;
               mkPlayer (js "Klaas") [(js "championship_mix", 1)] 1])
  = List.length
      (allWinners
         [mkResult 2019 (js "mix") championship (js "A")
            [js "Cedric"; js "Klaas"];
          mkResult 2020 (js "zomercyclus") competition (js "A")
            [js "Cédric"]]).
Proof.
  apply total_wins_conserved. vm_compute. reflexivity.
Defined.

(** X3. No two players of the output have display names with the same
    normalization key. *)
Theorem players_have_distinct_keys (allResults : list Result)
    (players : list Player) :
  buildPlayerStats allResults = Some players ->
  NoDup (map keyOf players).
Proof.
  intros H. destruct (buildPlayerStats_map _ _ H) as (pm & Hpm & ->).
  apply (Permutation_NoDup
           (Permutation_sym
              (Permutation_map keyOf (sortPlayers_perm (map snd pm))))).
  destruct (reachable_keys pm (creditResults_reachable_nil _ _ Hpm))
    as [Hd Hk].
  now rewrite (keys_of_values pm Hk).
Qed.

Lemma players_have_distinct_keys_witness :
  NoDup (map keyOf
           [mkPlayer (js "Cédric")
              [(js "championship_mix", 1);
               (js "competition_zomercyclus", 1)] 2;
            mkPlayer (js "Klaas") [(js "championship_mix", 1)] 1]).
Proof.
  apply (players_have_distinct_keys
           [mkResult 2019 (js "mix") championship (js "A")
              [js "Cedric"; js "Klaas"];
            mkResult 2020 (js "zomercyclus") competition (js "A")
              [js "Cédric"]]).
  vm_compute. reflexivity.
Defined.

Section FirstSeenLemmas.

Lemma assocGet_keys {V : Type} (k : jsstring) (l : list (jsstring * V)) :
  existsb (JsString.eqb k) (map fst l)
  = match assocGet k l with Some _ => true | None => false end.
Proof.
  induction l as [|[k0 v0] l IH]; simpl; [reflexivity|].
  destruct (JsString.eqb k k0); [reflexivity | exact IH].
Qed.

Lemma keysSeen_snoc (ws : list jsstring) (w : jsstring) :
  keysSeen (ws ++ [w])
  = match playerKey w with
    | Some k => if existsb (JsString.eqb k) (keysSeen ws)
                then keysSeen ws else keysSeen ws ++ [k]
    | None => keysSeen ws
    end.
Proof. unfold keysSeen. now rewrite fold_left_app. Qed.

(** The map holds the keys in the order of their first winner. *)
Lemma keys_first_seen (allResults : list Result) (pm : PlayerMap) :
  creditResults [] allResults = Some pm ->
  map fst pm = keysSeen (allWinners allResults).
Proof.
  intros H. rewrite <- credits_winners.
  apply (creditResults_trace
           (fun cs pm => map fst pm = keysSeen (map snd cs)))
    with (cs := []) (pm := []) (pm' := pm) (allResults := allResults);
    try assumption; [|reflexivity].
  clear. intros cs pm r w pm' IH E.
  destruct (creditWinner_player _ _ _ _ E) as (k0 & p & Hk & -> & _).
  rewrite map_app. change (map snd [(r, w)]) with [w].
  rewrite keysSeen_snoc, Hk, <- IH, assocGet_keys, assocSet_keys.
  now destruct (assocGet k0 pm).
Qed.

End FirstSeenLemmas.

(** X4. The players of the output are the players in first-seen order,
    sorted by total, largest first, and players with the same total keep
    their first-seen order; the first-seen order is the order in which the
    keys first come among the winners. *)
Theorem players_sorted_stable (allResults : list Result)
    (players : list Player) :
  buildPlayerStats allResults = Some players ->
  exists seen,
    firstSeen allResults = Some seen
    /\ map keyOf seen = keysSeen (allWinners allResults)
    /\ StronglySorted moreWins players
    /\ Permutation players seen
    /\ forall n, filter (withTotal n) players = filter (withTotal n) seen.
Proof.
  intros H. destruct (buildPlayerStats_map _ _ H) as (pm & Hpm & ->).
  exists (map snd pm). unfold firstSeen. rewrite Hpm.
  split; [reflexivity|]. split.
  - destruct (reachable_keys pm (creditResults_reachable_nil _ _ Hpm))
      as [_ Hk].
    rewrite (keys_of_values pm Hk). now apply keys_first_seen.
  - split; [apply sortPlayers_sorted|].
    split; [apply sortPlayers_perm|].
    intros n. apply sortPlayers_stable.
Qed.

Lemma players_sorted_stable_witness :
  exists seen,
    firstSeen
      [mkResult 2019 (js "mix") championship (js "A")
         [js "Klaas"; js "Cedric"; js "Piet"];
       mkResult 2020 (js "zomercyclus") competition (js "A") [js "Cédric"]]
    = Some seen
    /\ map keyOf seen
       = keysSeen
           (allWinners
              [mkResult 2019 (js "mix") championship (js "A")
                 [js "Klaas"; js "Cedric"; js "Piet"];
               mkResult 2020 (js "zomercyclus") competition (js "A")
                 [js "Cédric"]])
    /\ StronglySorted moreWins
         [mkPlayer (js "Cédric")
            [(js "championship_mix", 1); (js "competition_zomercyclus", 1)] 2;
          mkPlayer (js "Klaas") [(js "championship_mix", 1)] 1;
          mkPlayer (js "Piet") [(js "championship_mix", 1)] 1]
    /\ Permutation
         [mkPlayer (js "Cédric")
            [(js "championship_mix", 1); (js "competition_zomercyclus", 1)] 2;
          mkPlayer (js "Klaas") [(js "championship_mix", 1)] 1;
          mkPlayer (js "Piet") [(js "championship_mix", 1)] 1]
         seen
    /\ forall n,
         filter (withTotal n)
           [mkPlayer (js "Cédric")
              [(js "championship_mix", 1);
               (js "competition_zomercyclus", 1)] 2;
            mkPlayer (js "Klaas") [(js "championship_mix", 1)] 1;
            mkPlayer (js "Piet") [(js "championship_mix", 1)] 1]
         = filter (withTotal n) seen.
Proof.
  apply players_sorted_stable. vm_compute. reflexivity.
Defined.

(** X5. The display name of a player of the output is the canonical name of
    one of the winners, and no winner of the same key has a canonical name
    with more diacritics. *)
Theorem display_name_best_seen (allResults : list Result)
    (players : list Player) (p : Player) :
  buildPlayerStats allResults = Some players -> In p players ->
  (exists w, In w (allWinners allResults)
             /\ applyNameMapping w = JsStr (displayName p))
  /\ forall w c, In w (allWinners allResults) ->
       applyNameMapping w = JsStr c -> normalizeName c = keyOf p ->
       countDiacritics c <= countDiacritics (displayName p).
Proof.
  intros H Hp. destruct (buildPlayerStats_map _ _ H) as (pm & Hpm & ->).
  apply (proj1 (sortPlayers_In _ _)) in Hp.
  pose proof (player_entry allResults pm p Hpm Hp) as He.
  destruct (display_names_seen allResults pm Hpm _ p He)
    as [(r & w & Hin & Hw) Hmax].
  split.
  - exists w. split; [exact (In_credits_winners _ _ _ Hin) | exact Hw].
  - intros w1 c1 Hin1 Hc1 Hk1.
    destruct (In_winners_credits _ _ Hin1) as (r1 & Hr1).
    exact (Hmax r1 w1 c1 Hr1 Hc1 Hk1).
Qed.

Lemma display_name_best_seen_witness :
  (exists w,
      In w (allWinners
              [mkResult 2019 (js "mix") championship (js "A")
                 [js "Cedric"; js "Klaas"];
               mkResult 2020 (js "zomercyclus") competition (js "A")
                 [js "Cédric"]])
      /\ applyNameMapping w = JsStr (js "Cédric"))
  /\ forall w c,
       In w (allWinners
               [mkResult 2019 (js "mix") championship (js "A")
                  [js "Cedric"; js "Klaas"];
                mkResult 2020 (js "zomercyclus") competition (js "A")
                  [js "Cédric"]]) ->
       applyNameMapping w = JsStr c -> normalizeName c = js "cedric" ->
       countDiacritics c <= 1.
Proof.
  apply (display_name_best_seen
           [mkResult 2019 (js "mix") championship (js "A")
              [js "Cedric"; js "Klaas"];
            mkResult 2020 (js "zomercyclus") competition (js "A")
              [js "Cédric"]]
           [mkPlayer (js "Cédric")
              [(js "championship_mix", 1); (js "competition_zomercyclus", 1)]
              2;
            mkPlayer (js "Klaas") [(js "championship_mix", 1)] 1]
           (mkPlayer (js "Cédric")
              [(js "championship_mix", 1); (js "competition_zomercyclus", 1)]
              2)).
  - vm_compute. reflexivity.
  - left. reflexivity.
Defined.

(* ================================================================== *)
(** * The key of a key                                                  *)
(* ================================================================== *)

Section KeyOfKeyLemmas.

Local Open Scope N_scope.

Local Arguments unitsOf : simpl never.
Local Arguments lowerCodePoint : simpl never.

Lemma plainName_app (a b : jsstring) :
  plainName (a ++ b) <-> plainName a /\ plainName b.
Proof.
  unfold plainName. rewrite forallb_app, andb_true_iff. reflexivity.
Qed.

Lemma plainName_cons (u : N) (a : jsstring) :
  plainName (u :: a) <-> plainUnit u = true /\ plainName a.
Proof.
  unfold plainName. cbn [forallb]. rewrite andb_true_iff. reflexivity.
Qed.

Lemma codeUnits_plainName (cps : list N) :
  Forall (fun c => c < 1114112 /\ c <> SIGMA /\ c <> CAPITAL_I_DOT) cps ->
  plainName (codeUnits cps).
Proof.
  induction 1 as [|c r (Hc & Hs & Hd) _ IH]; [reflexivity|].
  unfold codeUnits in *. cbn [flat_map]. apply plainName_app.
  split; [|exact IH].
  destruct (N.lt_ge_cases c 65536) as [Hlt|Hge].
  - rewrite (unitsOf_small c Hlt). apply plainName_cons. split; [|reflexivity].
    now apply plainUnit_iff.
  - destruct (unitsOf_pair c (conj Hge Hc)) as (h & l & E & Hh & Hl & _).
    rewrite E. unfold isHighSurrogate in Hh. unfold isLowSurrogate in Hl.
    apply andb_true_iff in Hh as [Hh1 Hh2].
    apply andb_true_iff in Hl as [Hl1 Hl2].
    apply N.leb_le in Hh1, Hh2, Hl1, Hl2.
    apply plainName_cons. split.
    { apply plainUnit_iff. unfold SIGMA, CAPITAL_I_DOT. lia. }
    apply plainName_cons. split; [|reflexivity].
    apply plainUnit_iff. unfold SIGMA, CAPITAL_I_DOT. lia.
Qed.

(** The lower case of a name without the two letters is such a name. *)
Lemma plainName_lowerSimple (s : jsstring) :
  plainName s -> plainName (lowerSimple s).
Proof.
  intros H. destruct (plainName_codePoints s H) as (_ & _ & Hb).
  unfold lowerSimple. apply codeUnits_plainName.
  apply Forall_forall. intros d Hd. apply in_map_iff in Hd as (c & <- & Hc).
  rewrite Forall_forall in Hb.
  destruct (lowerCodePoint_not_special c) as [N1 N2].
  split; [|split; assumption].
  now apply lowerCodePoint_surrogate, Hb.
Qed.

Lemma plainName_trim (s : jsstring) : plainName s -> plainName (trim s).
Proof.
  intros H. destruct (trim_split s) as (w1 & w2 & _ & _ & E).
  rewrite E in H. apply plainName_app in H as [_ H].
  now apply plainName_app in H.
Qed.

Lemma plainUnit_foldAccents (c : N) :
  plainUnit c = true -> plainUnit (foldAccents c) = true.
Proof.
  intros H. destruct (foldAccents_cases c) as [->|D]; [assumption|].
  vm_compute in D.
  repeat (destruct D as [D|D]; [subst c; reflexivity|]). contradiction.
Qed.

Lemma plainName_foldAccents (s : jsstring) :
  plainName s -> plainName (map foldAccents s).
Proof.
  induction s as [|c r IH]; [trivial|]. cbn [map].
  rewrite !plainName_cons. intros [H1 H2].
  split; [now apply plainUnit_foldAccents | auto].
Qed.

Lemma plainName_collapseFrom (inRun : bool) (s : jsstring) :
  plainName s -> plainName (collapseFrom inRun s).
Proof.
  revert inRun. induction s as [|c r IH]; intros inRun H; [trivial|].
  apply plainName_cons in H as [Hc Hr]. cbn [collapseFrom].
  destruct (isWhiteSpace c).
  - destruct inRun; [now apply IH|].
    apply plainName_cons. split; [reflexivity | now apply IH].
  - apply plainName_cons. split; [assumption | now apply IH].
Qed.

(** The key of a name without the two letters is such a name. *)
Lemma plainName_normalizeName (name : jsstring) :
  plainName name -> plainName (normalizeName name).
Proof.
  intros H. rewrite normalizeName_units, (toLowerCase_plain name H).
  apply plainName_collapseFrom, plainName_foldAccents, plainName_trim.
  now apply plainName_lowerSimple.
Qed.

End KeyOfKeyLemmas.

(** X7. The key of a name that holds no Greek capital sigma and no capital
    I with dot above is a key of itself: [normalizeName] leaves it as it
    is. *)
Theorem normalizeName_idempotent (name : jsstring) :
  plainName name ->
  normalizeName (normalizeName name) = normalizeName name.
Proof.
  intros H. pose proof (plainName_normalizeName name H) as Hk.
  symmetry. apply (normalizeName_iff name (normalizeName name) H Hk).
  now apply normalizeName_variant.
Qed.

Lemma normalizeName_idempotent_witness :
  normalizeName (normalizeName (js "  Cédric   van  DAM "))
  = normalizeName (js "  Cédric   van  DAM ").
Proof.
  apply (normalizeName_idempotent (js "  Cédric   van  DAM ")).
  vm_compute. reflexivity.
Defined.
